(** * Parametric mesh generators of [stl_tool.py]

    A shallow embedding of the four generators [create_cylinder_stl],
    [create_sphere_stl], [create_cone_stl] and [create_cone_with_top_stl].

    - Python integers are [Z]; [%] is [Z.modulo] (both take the sign of the
      divisor), [max] is [Z.max], [range n] is the list [0; 1; ...; n-1].
    - Python floats are modelled as exact reals [R]: [math.pi] is [PI],
      [math.cos] and [math.sin] are [cos] and [sin].  Every statement about
      coordinates below is therefore a statement in exact real arithmetic.
    - A list that the code grows with [append] inside a [for] loop is a
      state threaded through [for_range].
    - An index expression [a[k]] is [getitem], which fails (returns [None])
      exactly where Python raises [IndexError].
    - The file writer ([mesh.Mesh(...).save]) and the [print] calls are
      outside the model; the generators return [Some (vertices, faces)] when
      every vertex lookup made before the write succeeds. *)

From Stdlib Require Import ZArith List Lia Bool.
From Stdlib Require Import Reals Lra.
Import ListNotations.

Set Implicit Arguments.

(** ** Python primitives *)

Module Py.

Definition range (n : Z) : list Z :=
  map Z.of_nat (seq 0 (Z.to_nat n)).

Definition range2 (a b : Z) : list Z :=
  map (fun k => (a + Z.of_nat k)%Z) (seq 0 (Z.to_nat (b - a))).

Definition len {A} (l : list A) : Z := Z.of_nat (length l).

Definition append {A} (l : list A) (x : A) : list A := l ++ [x].

(** [for i in range(n): body] with the loop state [s]. *)
Definition for_range {S} (n : Z) (body : Z -> S -> S) (s : S) : S :=
  fold_left (fun s i => body i s) (range n) s.

Definition for_range2 {S} (a b : Z) (body : Z -> S -> S) (s : S) : S :=
  fold_left (fun s i => body i s) (range2 a b) s.

(** [l[k]]: negative indices count from the end, anything else out of
    range raises. *)
Definition getitem {A} (l : list A) (k : Z) : option A :=
  if (0 <=? k)%Z then nth_error l (Z.to_nat k)
  else if (- len l <=? k)%Z then nth_error l (Z.to_nat (len l + k))
  else None.

(** [l[:k]] for a non-negative [k]. *)
Definition slice_to {A} (l : list A) (k : Z) : list A :=
  firstn (Z.to_nat k) l.

Definition bind {A B} (m : option A) (k : A -> option B) : option B :=
  match m with
  | Some a => k a
  | None => None
  end.

(** A loop whose body may raise and whose results are collected. *)
Fixpoint for_each {A B} (body : A -> option B) (l : list A)
  : option (list B) :=
  match l with
  | [] => Some []
  | a :: l' =>
      bind (body a) (fun b =>
      bind (for_each body l') (fun bs => Some (b :: bs)))
  end.

End Py.

Notation "x <- m ;; k" := (Py.bind m (fun x => k))
  (at level 61, m at next level, right associativity).

(** ** Vertices and faces *)

Record vec3 : Type := V3 { vx : R; vy : R; vz : R }.

Definition face : Type := (Z * Z * Z)%type.

Definition f0 (f : face) : Z := fst (fst f).
Definition f1 (f : face) : Z := snd (fst f).
Definition f2 (f : face) : Z := snd f.

Open Scope R_scope.

Definition vsub (a b : vec3) : vec3 :=
  V3 (vx a - vx b) (vy a - vy b) (vz a - vz b).

Definition vadd (a b : vec3) : vec3 :=
  V3 (vx a + vx b) (vy a + vy b) (vz a + vz b).

Definition dot (a b : vec3) : R :=
  vx a * vx b + vy a * vy b + vz a * vz b.

(** [np.cross] *)
Definition cross (u v : vec3) : vec3 :=
  V3 (vy u * vz v - vz u * vy v)
     (vz u * vx v - vx u * vz v)
     (vx u * vy v - vy u * vx v).

(** [np.linalg.norm] *)
Definition norm (a : vec3) : R :=
  sqrt (vx a * vx a + vy a * vy a + vz a * vz a).

Definition vdiv (a : vec3) (s : R) : vec3 :=
  V3 (vx a / s) (vy a / s) (vz a / s).

(** The face normal as the cylinder's verification loop computes it
    (lines 90-98): the three lookups, the two edge vectors, their cross
    product, and the division by its length. *)
Definition face_normal (vertices : list vec3) (face : face) : option vec3 :=
  v0 <- Py.getitem vertices (f0 face) ;;
  v1 <- Py.getitem vertices (f1 face) ;;
  v2 <- Py.getitem vertices (f2 face) ;;
  let u := vsub v1 v0 in
  let v := vsub v2 v0 in
  let normal := cross u v in
  let normal := vdiv normal (norm normal) in
  Some normal.

(** The rows [vectors[i][j] = vertices[f[j], :]] of the output mesh. *)
Definition mesh_vectors (vertices : list vec3) (faces : list face)
  : option (list (vec3 * vec3 * vec3)) :=
  Py.for_each (fun f =>
    a <- Py.getitem vertices (f0 f) ;;
    b <- Py.getitem vertices (f1 f) ;;
    c <- Py.getitem vertices (f2 f) ;;
    Some (a, b, c)) faces.

(** ** The cylinder (lines 5-121) *)

Definition cylinder_vertices (radius height : R) (num_segments : Z)
  : list vec3 :=
  let vertices := [] in
  let vertices := Py.append vertices (V3 0 0 (- height / 2)) in
  let vertices := Py.append vertices (V3 0 0 (height / 2)) in
  let vertices := Py.for_range num_segments (fun i vertices =>
    let angle := 2 * PI * IZR i / IZR num_segments in
    let x := radius * cos angle in
    let y := radius * sin angle in
    let z := - height / 2 in
    Py.append vertices (V3 x y z)) vertices in
  let vertices := Py.for_range num_segments (fun i vertices =>
    let angle := 2 * PI * IZR i / IZR num_segments in
    let x := radius * cos angle in
    let y := radius * sin angle in
    let z := height / 2 in
    Py.append vertices (V3 x y z)) vertices in
  vertices.

Definition cylinder_faces (num_segments : Z) : list face :=
  let faces := [] in
  let faces := Py.for_range num_segments (fun i faces =>
    let next_i := ((i + 1) mod num_segments)%Z in
    Py.append faces (0, 2 + next_i, 2 + i)%Z) faces in
  let faces := Py.for_range num_segments (fun i faces =>
    let next_i := ((i + 1) mod num_segments)%Z in
    Py.append faces
      (1, 2 + num_segments + i, 2 + num_segments + next_i)%Z) faces in
  let faces := Py.for_range num_segments (fun i faces =>
    let next_i := ((i + 1) mod num_segments)%Z in
    let bottom_current := (2 + i)%Z in
    let bottom_next := (2 + next_i)%Z in
    let top_current := (2 + num_segments + i)%Z in
    let top_next := (2 + num_segments + next_i)%Z in
    let faces := Py.append faces (bottom_current, bottom_next, top_next) in
    Py.append faces (bottom_current, top_next, top_current)) faces in
  faces.

Definition create_cylinder_stl (radius height : R) (num_segments : Z)
  : option (list vec3 * list face) :=
  let num_segments := Z.max 3 num_segments in
  let vertices := cylinder_vertices radius height num_segments in
  let faces := cylinder_faces num_segments in
  _ <- Py.for_each (face_normal vertices) (Py.slice_to faces 4) ;;
  _ <- mesh_vectors vertices faces ;;
  Some (vertices, faces).

(** ** The sphere (lines 123-217) *)

Definition sphere_vertices (radius : R)
  (num_segments_vertical num_segments_horizontal : Z) : list vec3 :=
  let vertices := [] in
  let vertices := Py.append vertices (V3 0 0 radius) in
  let vertices := Py.for_range2 1 num_segments_vertical (fun i vertices =>
    let theta := PI * IZR i / IZR num_segments_vertical in
    let z := radius * cos theta in
    let circle_radius := radius * sin theta in
    Py.for_range num_segments_horizontal (fun j vertices =>
      let phi := 2 * PI * IZR j / IZR num_segments_horizontal in
      let x := circle_radius * cos phi in
      let y := circle_radius * sin phi in
      Py.append vertices (V3 x y z)) vertices) vertices in
  let vertices := Py.append vertices (V3 0 0 (- radius)) in
  vertices.

Definition sphere_faces (vertices : list vec3)
  (num_segments_vertical num_segments_horizontal : Z) : list face :=
  let faces := [] in
  let faces := Py.for_range num_segments_horizontal (fun j faces =>
    let next_j := ((j + 1) mod num_segments_horizontal)%Z in
    Py.append faces (0, 1 + next_j, 1 + j)%Z) faces in
  let faces := Py.for_range (num_segments_vertical - 2) (fun i faces =>
    Py.for_range num_segments_horizontal (fun j faces =>
      let next_j := ((j + 1) mod num_segments_horizontal)%Z in
      let current_vertex := (1 + i * num_segments_horizontal + j)%Z in
      let current_next := (1 + i * num_segments_horizontal + next_j)%Z in
      let next_lat_vertex :=
        (1 + (i + 1) * num_segments_horizontal + j)%Z in
      let next_lat_next :=
        (1 + (i + 1) * num_segments_horizontal + next_j)%Z in
      let faces :=
        Py.append faces (current_vertex, current_next, next_lat_next) in
      Py.append faces (current_vertex, next_lat_next, next_lat_vertex))
      faces) faces in
  let south_pole_index := (Py.len vertices - 1)%Z in
  let last_latitude_start :=
    (1 + (num_segments_vertical - 2) * num_segments_horizontal)%Z in
  let faces := Py.for_range num_segments_horizontal (fun j faces =>
    let next_j := ((j + 1) mod num_segments_horizontal)%Z in
    Py.append faces
      (last_latitude_start + j, last_latitude_start + next_j,
       south_pole_index)%Z) faces in
  faces.

Definition create_sphere_stl (radius : R)
  (num_segments_vertical num_segments_horizontal : Z)
  : option (list vec3 * list face) :=
  let num_segments_vertical := Z.max 3 num_segments_vertical in
  let num_segments_horizontal := Z.max 3 num_segments_horizontal in
  let vertices :=
    sphere_vertices radius num_segments_vertical num_segments_horizontal in
  let faces :=
    sphere_faces vertices num_segments_vertical num_segments_horizontal in
  _ <- mesh_vectors vertices faces ;;
  Some (vertices, faces).

(** ** The cone (lines 219-292) *)

Definition cone_vertices (radius height : R) (num_segments : Z)
  : list vec3 :=
  let vertices := [] in
  let vertices := Py.append vertices (V3 0 0 0) in
  let vertices := Py.append vertices (V3 0 0 height) in
  let vertices := Py.for_range num_segments (fun i vertices =>
    let angle := 2 * PI * IZR i / IZR num_segments in
    let x := radius * cos angle in
    let y := radius * sin angle in
    let z := 0 in
    Py.append vertices (V3 x y z)) vertices in
  vertices.

Definition cone_faces (num_segments : Z) : list face :=
  let faces := [] in
  let faces := Py.for_range num_segments (fun i faces =>
    let next_i := ((i + 1) mod num_segments)%Z in
    Py.append faces (0, 2 + next_i, 2 + i)%Z) faces in
  let faces := Py.for_range num_segments (fun i faces =>
    let next_i := ((i + 1) mod num_segments)%Z in
    let bottom_current := (2 + i)%Z in
    let bottom_next := (2 + next_i)%Z in
    let apex := 1%Z in
    Py.append faces (bottom_current, bottom_next, apex)) faces in
  faces.

Definition create_cone_stl (radius height : R) (num_segments : Z)
  : option (list vec3 * list face) :=
  let num_segments := Z.max 3 num_segments in
  let vertices := cone_vertices radius height num_segments in
  let faces := cone_faces num_segments in
  _ <- mesh_vectors vertices faces ;;
  Some (vertices, faces).

(** ** The frustum (lines 294-386) *)

Definition frustum_vertices (bottom_radius top_radius height : R)
  (num_segments : Z) : list vec3 :=
  let vertices := [] in
  let vertices := Py.append vertices (V3 0 0 0) in
  let vertices := Py.append vertices (V3 0 0 height) in
  let vertices := Py.for_range num_segments (fun i vertices =>
    let angle := 2 * PI * IZR i / IZR num_segments in
    let x := bottom_radius * cos angle in
    let y := bottom_radius * sin angle in
    let z := 0 in
    Py.append vertices (V3 x y z)) vertices in
  let vertices := Py.for_range num_segments (fun i vertices =>
    let angle := 2 * PI * IZR i / IZR num_segments in
    let x := top_radius * cos angle in
    let y := top_radius * sin angle in
    let z := height in
    Py.append vertices (V3 x y z)) vertices in
  vertices.

Definition frustum_faces (num_segments : Z) : list face :=
  let faces := [] in
  let faces := Py.for_range num_segments (fun i faces =>
    let next_i := ((i + 1) mod num_segments)%Z in
    Py.append faces (0, 2 + next_i, 2 + i)%Z) faces in
  let faces := Py.for_range num_segments (fun i faces =>
    let next_i := ((i + 1) mod num_segments)%Z in
    Py.append faces
      (1, 2 + num_segments + i, 2 + num_segments + next_i)%Z) faces in
  let faces := Py.for_range num_segments (fun i faces =>
    let next_i := ((i + 1) mod num_segments)%Z in
    let bottom_current := (2 + i)%Z in
    let bottom_next := (2 + next_i)%Z in
    let top_current := (2 + num_segments + i)%Z in
    let top_next := (2 + num_segments + next_i)%Z in
    let faces := Py.append faces (bottom_current, bottom_next, top_next) in
    Py.append faces (bottom_current, top_next, top_current)) faces in
  faces.

Definition create_cone_with_top_stl (bottom_radius top_radius height : R)
  (num_segments : Z) : option (list vec3 * list face) :=
  let num_segments := Z.max 3 num_segments in
  let vertices :=
    frustum_vertices bottom_radius top_radius height num_segments in
  let faces := frustum_faces num_segments in
  _ <- mesh_vectors vertices faces ;;
  Some (vertices, faces).

(** ** Mesh properties *)

Close Scope R_scope.
Open Scope Z_scope.

(** The three directed edges of a face, in winding order. *)
Definition face_edges (f : face) : list (Z * Z) :=
  [(f0 f, f1 f); (f1 f, f2 f); (f2 f, f0 f)].

Definition dedges (faces : list face) : list (Z * Z) :=
  flat_map face_edges faces.

Definition same_edge (e1 e2 : Z * Z) : bool :=
  ((fst e1 =? fst e2) && (snd e1 =? snd e2))
  || ((fst e1 =? snd e2) && (snd e1 =? fst e2)).

(** Does face [f] have the undirected edge [e]? *)
Definition has_edge (e : Z * Z) (f : face) : bool :=
  existsb (same_edge e) (face_edges f).

(** The number of faces of the list that have the undirected edge [e]. *)
Definition edge_faces (e : Z * Z) (faces : list face) : nat :=
  length (filter (has_edge e) faces).

(** A directed edge read backwards, and how often a directed edge occurs
    in a list of directed edges. *)
Definition swap_edge (e : Z * Z) : Z * Z := (snd e, fst e).

Definition edge_eqb (e1 e2 : Z * Z) : bool :=
  (fst e1 =? fst e2) && (snd e1 =? snd e2).

Definition count_edge (e : Z * Z) (l : list (Z * Z)) : nat :=
  length (filter (edge_eqb e) l).

(** Every undirected edge of some face is in exactly two faces. *)
Definition closed (faces : list face) : Prop :=
  forall f e, In f faces -> In e (face_edges f) -> edge_faces e faces = 2%nat.

Definition closedb (faces : list face) : bool :=
  forallb (fun f =>
    forallb (fun e => Nat.eqb (edge_faces e faces) 2) (face_edges f)) faces.

Definition in_bounds (n : Z) (f : face) : Prop :=
  (0 <= f0 f < n) /\ (0 <= f1 f < n) /\ (0 <= f2 f < n).

Definition all_in_bounds (vertices : list vec3) (faces : list face) : Prop :=
  forall f, In f faces -> in_bounds (Py.len vertices) f.

Definition nondegenerate (f : face) : Prop :=
  f0 f <> f1 f /\ f1 f <> f2 f /\ f0 f <> f2 f.

(** The unit normal of face [f] has a positive component along the
    direction from the point [c] to the face: it points away from [c].
    With [c] inside a convex solid this is the outward side. *)
Definition points_away_from (c : vec3) (vertices : list vec3) (f : face)
  : Prop :=
  exists v0 n,
    Py.getitem vertices (f0 f) = Some v0 /\
    face_normal vertices f = Some n /\
    (0 < dot n (vsub v0 c))%R.

(** The unit normal of face [f] points to the side of the point [c]. *)
Definition points_toward (c : vec3) (vertices : list vec3) (f : face)
  : Prop :=
  exists v0 n,
    Py.getitem vertices (f0 f) = Some v0 /\
    face_normal vertices f = Some n /\
    (dot n (vsub v0 c) < 0)%R.

(** The faces at positions [0 .. N-1] of the cylinder's face list are its
    bottom cap and those at [N .. 2N-1] its top cap (lines 101-104); their
    unit normals are straight down and straight up. *)
Definition cap_normals (N : Z) (vertices : list vec3) (faces : list face)
  : Prop :=
  forall i, 0 <= i < N ->
    (exists f, Py.getitem faces i = Some f /\
               face_normal vertices f = Some (V3 0 0 (-1))) /\
    (exists f, Py.getitem faces (N + i) = Some f /\
               face_normal vertices f = Some (V3 0 0 1)).

(** ** The pieces the loops emit

    One definition per loop body of the source, used to write each
    generator's result as an explicit list. *)

Definition ring_point (radius z : R) (N i : Z) : vec3 :=
  V3 (radius * cos (2 * PI * IZR i / IZR N))%R
     (radius * sin (2 * PI * IZR i / IZR N))%R z.

Definition fan_down (N i : Z) : face := (0, 2 + (i + 1) mod N, 2 + i).
Definition fan_up (N i : Z) : face := (1, 2 + N + i, 2 + N + (i + 1) mod N).
Definition side_lo (N i : Z) : face :=
  (2 + i, 2 + (i + 1) mod N, 2 + N + (i + 1) mod N).
Definition side_hi (N i : Z) : face :=
  (2 + i, 2 + N + (i + 1) mod N, 2 + N + i).
Definition side_apex (N i : Z) : face := (2 + i, 2 + (i + 1) mod N, 1).

Definition sphere_point (radius : R) (Nv Nh i j : Z) : vec3 :=
  V3 (radius * sin (PI * IZR i / IZR Nv) * cos (2 * PI * IZR j / IZR Nh))%R
     (radius * sin (PI * IZR i / IZR Nv) * sin (2 * PI * IZR j / IZR Nh))%R
     (radius * cos (PI * IZR i / IZR Nv))%R.

Definition fan_north (Nh j : Z) : face := (0, 1 + (j + 1) mod Nh, 1 + j).
Definition band_lo (Nh i j : Z) : face :=
  (1 + i * Nh + j, 1 + i * Nh + (j + 1) mod Nh,
   1 + (i + 1) * Nh + (j + 1) mod Nh).
Definition band_hi (Nh i j : Z) : face :=
  (1 + i * Nh + j, 1 + (i + 1) * Nh + (j + 1) mod Nh,
   1 + (i + 1) * Nh + j).
Definition fan_south (Nv Nh pole j : Z) : face :=
  (1 + (Nv - 2) * Nh + j, 1 + (Nv - 2) * Nh + (j + 1) mod Nh, pole).

(** The sphere's face list, with [P] the index of the south pole. *)
Definition sphere_face_list (Nv Nh P : Z) : list face :=
  flat_map (fun j => [fan_north Nh j]) (Py.range Nh)
    ++ flat_map (fun i =>
         flat_map (fun j => [band_lo Nh i j; band_hi Nh i j]) (Py.range Nh))
         (Py.range (Nv - 2))
    ++ flat_map (fun j => [fan_south Nv Nh P j]) (Py.range Nh).

(** What a generator returns: it does return, and the pair satisfies [P]. *)
Definition returns (m : option (list vec3 * list face))
  (P : list vec3 -> list face -> Prop) : Prop :=
  exists vs fs, m = Some (vs, fs) /\ P vs fs.


(** ** The sphere as section 4.3 of the specification words it

    Latitude rings are numbered [1 .. Nv-1] from the north pole, and a
    vertex is named by its ring and its position on the ring. *)

Module SphereSpec.

Definition theta (Nv i : Z) : R := (PI * IZR i / IZR Nv)%R.

Definition phi (Nh j : Z) : R := (2 * PI * IZR j / IZR Nh)%R.

Definition ring_vertex (r : R) (Nv Nh i j : Z) : vec3 :=
  let z := (r * cos (theta Nv i))%R in
  let ring_radius := (r * sin (theta Nv i))%R in
  V3 (ring_radius * cos (phi Nh j))%R (ring_radius * sin (phi Nh j))%R z.

Definition ring (r : R) (Nv Nh i : Z) : list vec3 :=
  map (ring_vertex r Nv Nh i) (Py.range Nh).

Definition vertices (r : R) (Nv Nh : Z) : list vec3 :=
  [V3 0 0 r] ++ concat (map (ring r Nv Nh) (Py.range2 1 Nv)) ++ [V3 0 0 (- r)].

(** Index of vertex [j] of ring [k]. *)
Definition ring_index (Nh k j : Z) : Z := 1 + (k - 1) * Nh + j.

(** The final index. *)
Definition south_pole (Nv Nh : Z) : Z := 1 + (Nv - 1) * Nh.

Definition next (Nh j : Z) : Z := (j + 1) mod Nh.

Definition north_cap (Nh : Z) : list face :=
  map (fun j => (0, ring_index Nh 1 (next Nh j), ring_index Nh 1 j))
    (Py.range Nh).

Definition band (Nh k : Z) : list face :=
  let cur := ring_index Nh k in
  let next_ring := ring_index Nh (k + 1) in
  concat (map (fun j =>
    [(cur j, cur (next Nh j), next_ring (next Nh j));
     (cur j, next_ring (next Nh j), next_ring j)]) (Py.range Nh)).

Definition mid_bands (Nv Nh : Z) : list face :=
  concat (map (band Nh) (Py.range2 1 (Nv - 1))).

Definition south_cap (Nv Nh : Z) : list face :=
  let ring := ring_index Nh (Nv - 1) in
  map (fun j => (ring j, ring (next Nh j), south_pole Nv Nh)) (Py.range Nh).

Definition faces (Nv Nh : Z) : list face :=
  north_cap Nh ++ mid_bands Nv Nh ++ south_cap Nv Nh.

End SphereSpec.

(** ** Orientation and Euler characteristic *)

(** No directed edge occurs twice, and every directed edge occurs reversed
    as well: neighbouring faces run along their common edge in opposite
    directions. *)
Definition oriented (faces : list face) : Prop :=
  NoDup (dedges faces) /\
  forall e, In e (dedges faces) -> In (swap_edge e) (dedges faces).

(** A directed edge with its smaller end first. *)
Definition undirected (e : Z * Z) : Z * Z :=
  (Z.min (fst e) (snd e), Z.max (fst e) (snd e)).

Fixpoint dedup (l : list (Z * Z)) : list (Z * Z) :=
  match l with
  | [] => []
  | e :: l' => if existsb (edge_eqb e) l' then dedup l' else e :: dedup l'
  end.

(** Is the directed edge listed with its smaller end first? *)
Definition ascending (e : Z * Z) : bool := fst e <? snd e.

(** The undirected edges of a face list, each listed once. *)
Definition edges (faces : list face) : list (Z * Z) :=
  dedup (map undirected (dedges faces)).

(** Vertices minus edges plus faces. *)
Definition euler (vertices : list vec3) (faces : list face) : Z :=
  Py.len vertices - Py.len (edges faces) + Py.len faces.

(** ** Vertices in use *)

Definition uses (f : face) (k : Z) : Prop :=
  f0 f = k \/ f1 f = k \/ f2 f = k.

(** Every vertex index is named by some face. *)
Definition all_used (vertices : list vec3) (faces : list face) : Prop :=
  forall k, 0 <= k < Py.len vertices -> exists f, In f faces /\ uses f k.

(** ** Assembling the output mesh *)

(** The indices [l[k]] accepts for a list of length [n]. *)
Definition valid_index (n k : Z) : Prop := - n <= k < n.


(** [row] holds the three vertices face [f] names, in order. *)
Definition row_of (vertices : list vec3) (f : face)
  (row : vec3 * vec3 * vec3) : Prop :=
  Py.getitem vertices (f0 f) = Some (fst (fst row)) /\
  Py.getitem vertices (f1 f) = Some (snd (fst row)) /\
  Py.getitem vertices (f2 f) = Some (snd row).

(** ** Side walls *)




Definition vscale (k : R) (a : vec3) : vec3 :=
  V3 (k * vx a) (k * vy a) (k * vz a).

(** ** Where the vertices lie *)

(** On the circle of the given radius around the z axis, at height [z]. *)
Definition on_circle (radius z : R) (v : vec3) : Prop :=
  vz v = z /\ (vx v * vx v + vy v * vy v = radius * radius)%R.


(** ** Small cases, by evaluation *)

Example cylinder_faces_4 :
  cylinder_faces 4 =
  [(0,3,2); (0,4,3); (0,5,4); (0,2,5);
   (1,6,7); (1,7,8); (1,8,9); (1,9,6);
   (2,3,7); (2,7,6); (3,4,8); (3,8,7); (4,5,9); (4,9,8); (5,2,6); (5,6,9)].
Proof. reflexivity. Qed.

Example closedb_small :
  closedb (cylinder_faces 3) = true /\ closedb (cylinder_faces 5) = true /\
  closedb (cone_faces 3) = true /\ closedb (cone_faces 4) = true /\
  closedb (sphere_faces (repeat (V3 0 0 0) 11) 4 3) = true /\
  closedb (sphere_faces (repeat (V3 0 0 0) 14) 3 6) = true /\
  closedb (cylinder_faces 2) = false.
Proof. repeat split; vm_compute; reflexivity. Qed.

Example cone_faces_3 :
  cone_faces 3 = [(0,3,2); (0,4,3); (0,2,4); (2,3,1); (3,4,1); (4,2,1)].
Proof. reflexivity. Qed.

Example sphere_faces_3_4 :
  sphere_faces (repeat (V3 0 0 0) 10) 3 4 =
  [(0,2,1); (0,3,2); (0,4,3); (0,1,4);
   (1,2,6); (1,6,5); (2,3,7); (2,7,6); (3,4,8); (3,8,7); (4,1,5); (4,5,8);
   (5,6,9); (6,7,9); (7,8,9); (8,5,9)].
Proof. reflexivity. Qed.

(** ** Loops as lists *)

Section Loops.

Lemma in_range (n i : Z) : In i (Py.range n) <-> 0 <= i < n.
Proof.
  unfold Py.range. rewrite in_map_iff. split.
  - intros (k & <- & Hk). apply in_seq in Hk. lia.
  - intros Hi. exists (Z.to_nat i). split; [lia|].
    apply in_seq. lia.
Qed.

Lemma in_range2 (a b i : Z) : In i (Py.range2 a b) <-> a <= i < b.
Proof.
  unfold Py.range2. rewrite in_map_iff. split.
  - intros (k & <- & Hk). apply in_seq in Hk. lia.
  - intros Hi. exists (Z.to_nat (i - a)). split; [lia|].
    apply in_seq. lia.
Qed.

Lemma length_range (n : Z) : length (Py.range n) = Z.to_nat n.
Proof. unfold Py.range. now rewrite length_map, length_seq. Qed.

Lemma length_range2 (a b : Z) : length (Py.range2 a b) = Z.to_nat (b - a).
Proof. unfold Py.range2. now rewrite length_map, length_seq. Qed.

Lemma NoDup_range (n : Z) : NoDup (Py.range n).
Proof.
  unfold Py.range. generalize (seq_NoDup (Z.to_nat n) 0).
  generalize (seq 0 (Z.to_nat n)) as l.
  induction l as [|k l IH]; intros Hl; simpl; constructor.
  - inversion_clear Hl as [|? ? Hk _]. rewrite in_map_iff.
    intros (k' & Heq & Hin). apply Nat2Z.inj in Heq. now subst.
  - apply IH. now inversion Hl.
Qed.

Lemma nth_error_range (n : Z) (k : nat) :
  (k < Z.to_nat n)%nat -> nth_error (Py.range n) k = Some (Z.of_nat k).
Proof.
  intros Hk. unfold Py.range.
  rewrite nth_error_map, nth_error_seq.
  destruct (Nat.ltb_spec k (Z.to_nat n)); [reflexivity | lia].
Qed.

Lemma range2_shift (a b : Z) :
  Py.range2 a b = map (fun k => a + k) (Py.range (b - a)).
Proof. unfold Py.range2, Py.range. now rewrite map_map. Qed.

Variables (A : Type).

Lemma fold_append (X : Type) (body : X -> list A -> list A)
  (g : X -> list A) (l : list X) :
  (forall x s, body x s = s ++ g x) ->
  forall s, fold_left (fun s x => body x s) l s = s ++ flat_map g l.
Proof.
  intros Hbody. induction l as [|x l IH]; intros s; simpl.
  - now rewrite app_nil_r.
  - now rewrite IH, Hbody, <- app_assoc.
Qed.

(** A [for] loop whose body only appends [g i] appends them in order. *)
Lemma for_range_append (n : Z) (body : Z -> list A -> list A)
  (g : Z -> list A) :
  (forall i s, body i s = s ++ g i) ->
  forall s, Py.for_range n body s = s ++ flat_map g (Py.range n).
Proof. intros H s. unfold Py.for_range. now apply fold_append. Qed.

Lemma for_range2_append (a b : Z) (body : Z -> list A -> list A)
  (g : Z -> list A) :
  (forall i s, body i s = s ++ g i) ->
  forall s, Py.for_range2 a b body s = s ++ flat_map g (Py.range2 a b).
Proof. intros H s. unfold Py.for_range2. now apply fold_append. Qed.

Lemma length_flat_map_const (X : Type) (g : X -> list A) (c : nat)
  (l : list X) :
  (forall x, length (g x) = c) -> length (flat_map g l) = (length l * c)%nat.
Proof.
  intros Hg. induction l as [|x l IH]; simpl; [reflexivity|].
  now rewrite length_app, IH, Hg.
Qed.

Lemma NoDup_flat_map (X : Type) (g : X -> list A) (l : list X) :
  NoDup l ->
  (forall x, In x l -> NoDup (g x)) ->
  (forall x y a, In x l -> In y l -> x <> y ->
                 In a (g x) -> In a (g y) -> False) ->
  NoDup (flat_map g l).
Proof.
  induction l as [|x l IH]; intros Hl Hg Hd; simpl; [constructor|].
  inversion_clear Hl as [|? ? Hx Hl'].
  apply NoDup_app.
  - apply Hg. now left.
  - apply IH; auto.
    + intros y Hy. apply Hg. now right.
    + intros y z a Hy Hz. apply Hd; now right.
  - intros a Ha Hin. apply in_flat_map in Hin as (y & Hy & Hay).
    apply (Hd x y a); auto; [now left | now right | congruence].
Qed.

Lemma flat_map_flat_map (X Y : Type) (g : X -> list Y) (h : Y -> list A)
  (l : list X) :
  flat_map h (flat_map g l) = flat_map (fun x => flat_map h (g x)) l.
Proof.
  induction l as [|x l IH]; simpl; [reflexivity|].
  now rewrite flat_map_app, IH.
Qed.

End Loops.

(** [next(i) = (i+1) mod N] on a ring of [N] points. *)
Lemma next_cases (N i : Z) :
  0 <= i < N ->
  (i + 1 < N /\ (i + 1) mod N = i + 1) \/ (i + 1 = N /\ (i + 1) mod N = 0).
Proof.
  intros Hi. destruct (Z.eq_dec (i + 1) N) as [E|E].
  - right. split; [exact E|]. rewrite E. apply Z.mod_same. lia.
  - left. split; [lia|]. apply Z.mod_small. lia.
Qed.

(** ** The generators as explicit lists *)

Lemma cylinder_vertices_eq (r h : R) (N : Z) :
  cylinder_vertices r h N =
  [V3 0 0 (- h / 2); V3 0 0 (h / 2)]
    ++ flat_map (fun i => [ring_point r (- h / 2) N i]) (Py.range N)
    ++ flat_map (fun i => [ring_point r (h / 2) N i]) (Py.range N).
Proof.
  unfold cylinder_vertices. cbv zeta.
  rewrite (for_range_append _ _ (fun i => [ring_point r (h / 2) N i]))
    by reflexivity.
  rewrite (for_range_append _ _ (fun i => [ring_point r (- h / 2) N i]))
    by reflexivity.
  unfold Py.append. simpl. rewrite <- ?app_assoc. reflexivity.
Qed.

Lemma cylinder_faces_eq (N : Z) :
  cylinder_faces N =
  flat_map (fun i => [fan_down N i]) (Py.range N)
    ++ flat_map (fun i => [fan_up N i]) (Py.range N)
    ++ flat_map (fun i => [side_lo N i; side_hi N i]) (Py.range N).
Proof.
  unfold cylinder_faces. cbv zeta.
  rewrite (for_range_append _ _ (fun i => [side_lo N i; side_hi N i])).
  2:{ intros i s. unfold Py.append. now rewrite <- app_assoc. }
  rewrite (for_range_append _ _ (fun i => [fan_up N i])) by reflexivity.
  rewrite (for_range_append _ _ (fun i => [fan_down N i])) by reflexivity.
  simpl. rewrite <- ?app_assoc. reflexivity.
Qed.

Lemma frustum_faces_cylinder (N : Z) : frustum_faces N = cylinder_faces N.
Proof. reflexivity. Qed.

Lemma frustum_vertices_eq (rb rt h : R) (N : Z) :
  frustum_vertices rb rt h N =
  [V3 0 0 0; V3 0 0 h]
    ++ flat_map (fun i => [ring_point rb 0 N i]) (Py.range N)
    ++ flat_map (fun i => [ring_point rt h N i]) (Py.range N).
Proof.
  unfold frustum_vertices. cbv zeta.
  rewrite (for_range_append _ _ (fun i => [ring_point rt h N i]))
    by reflexivity.
  rewrite (for_range_append _ _ (fun i => [ring_point rb 0 N i]))
    by reflexivity.
  unfold Py.append. simpl. rewrite <- ?app_assoc. reflexivity.
Qed.

Lemma cone_vertices_eq (r h : R) (N : Z) :
  cone_vertices r h N =
  [V3 0 0 0; V3 0 0 h]
    ++ flat_map (fun i => [ring_point r 0 N i]) (Py.range N).
Proof.
  unfold cone_vertices. cbv zeta.
  rewrite (for_range_append _ _ (fun i => [ring_point r 0 N i]))
    by reflexivity.
  reflexivity.
Qed.

Lemma cone_faces_eq (N : Z) :
  cone_faces N =
  flat_map (fun i => [fan_down N i]) (Py.range N)
    ++ flat_map (fun i => [side_apex N i]) (Py.range N).
Proof.
  unfold cone_faces. cbv zeta.
  rewrite (for_range_append _ _ (fun i => [side_apex N i])) by reflexivity.
  rewrite (for_range_append _ _ (fun i => [fan_down N i])) by reflexivity.
  reflexivity.
Qed.

Lemma sphere_vertices_eq (r : R) (Nv Nh : Z) :
  sphere_vertices r Nv Nh =
  [V3 0 0 r]
    ++ flat_map (fun i =>
         flat_map (fun j => [sphere_point r Nv Nh i j]) (Py.range Nh))
         (Py.range2 1 Nv)
    ++ [V3 0 0 (- r)].
Proof.
  unfold sphere_vertices. cbv zeta.
  rewrite (for_range2_append _ _ _ (fun i =>
    flat_map (fun j => [sphere_point r Nv Nh i j]) (Py.range Nh))).
  2:{ intros i s. now apply for_range_append. }
  unfold Py.append. simpl. rewrite <- ?app_assoc. reflexivity.
Qed.

Lemma sphere_faces_eq (vertices : list vec3) (Nv Nh : Z) :
  sphere_faces vertices Nv Nh =
  flat_map (fun j => [fan_north Nh j]) (Py.range Nh)
    ++ flat_map (fun i =>
         flat_map (fun j => [band_lo Nh i j; band_hi Nh i j]) (Py.range Nh))
         (Py.range (Nv - 2))
    ++ flat_map (fun j => [fan_south Nv Nh (Py.len vertices - 1) j])
         (Py.range Nh).
Proof.
  unfold sphere_faces. cbv zeta.
  rewrite (for_range_append _ _
    (fun j => [fan_south Nv Nh (Py.len vertices - 1) j])) by reflexivity.
  rewrite (for_range_append _ _ (fun i =>
    flat_map (fun j => [band_lo Nh i j; band_hi Nh i j]) (Py.range Nh))).
  2:{ intros i s. apply for_range_append. intros j s'.
      unfold Py.append. now rewrite <- app_assoc. }
  rewrite (for_range_append _ _ (fun j => [fan_north Nh j])) by reflexivity.
  simpl. rewrite <- ?app_assoc. reflexivity.
Qed.

(** ** Vertex and face counts *)

Lemma len_flat_map_range (A : Type) (g : Z -> list A) (c : nat) (n : Z) :
  0 <= n -> (forall i, length (g i) = c) ->
  Py.len (flat_map g (Py.range n)) = n * Z.of_nat c.
Proof.
  intros Hn Hg. unfold Py.len.
  rewrite length_flat_map_const with (c := c) by exact Hg.
  rewrite length_range. lia.
Qed.

Lemma len_app (A : Type) (l1 l2 : list A) :
  Py.len (l1 ++ l2) = Py.len l1 + Py.len l2.
Proof. unfold Py.len. rewrite length_app. lia. Qed.

Lemma len_cylinder_vertices (r h : R) (N : Z) :
  0 <= N -> Py.len (cylinder_vertices r h N) = 2 + 2 * N.
Proof.
  intros HN. rewrite cylinder_vertices_eq, !len_app.
  rewrite !len_flat_map_range with (c := 1%nat) by auto.
  unfold Py.len. simpl length. lia.
Qed.

Lemma len_frustum_vertices (rb rt h : R) (N : Z) :
  0 <= N -> Py.len (frustum_vertices rb rt h N) = 2 + 2 * N.
Proof.
  intros HN. rewrite frustum_vertices_eq, !len_app.
  rewrite !len_flat_map_range with (c := 1%nat) by auto.
  unfold Py.len. simpl length. lia.
Qed.

Lemma len_cone_vertices (r h : R) (N : Z) :
  0 <= N -> Py.len (cone_vertices r h N) = 2 + N.
Proof.
  intros HN. rewrite cone_vertices_eq, !len_app.
  rewrite !len_flat_map_range with (c := 1%nat) by auto.
  unfold Py.len. simpl length. lia.
Qed.

Lemma len_sphere_vertices (r : R) (Nv Nh : Z) :
  1 <= Nv -> 0 <= Nh ->
  Py.len (sphere_vertices r Nv Nh) = 2 + (Nv - 1) * Nh.
Proof.
  intros Hv Hh. rewrite sphere_vertices_eq, !len_app.
  unfold Py.len at 2.
  rewrite length_flat_map_const with (c := Z.to_nat Nh).
  2:{ intros i. rewrite length_flat_map_const with (c := 1%nat) by reflexivity.
      rewrite length_range. lia. }
  rewrite length_range2. unfold Py.len. simpl length. nia.
Qed.

Lemma len_cylinder_faces (N : Z) :
  0 <= N -> Py.len (cylinder_faces N) = 4 * N.
Proof.
  intros HN. rewrite cylinder_faces_eq, !len_app.
  rewrite !len_flat_map_range with (c := 1%nat) by auto.
  rewrite len_flat_map_range with (c := 2%nat) by auto.
  lia.
Qed.

Lemma len_cone_faces (N : Z) :
  0 <= N -> Py.len (cone_faces N) = 2 * N.
Proof.
  intros HN. rewrite cone_faces_eq, !len_app.
  rewrite !len_flat_map_range with (c := 1%nat) by auto.
  lia.
Qed.

Lemma len_sphere_faces (vs : list vec3) (Nv Nh : Z) :
  2 <= Nv -> 0 <= Nh ->
  Py.len (sphere_faces vs Nv Nh) = 2 * Nh + 2 * Nh * (Nv - 2).
Proof.
  intros Hv Hh. rewrite sphere_faces_eq, !len_app.
  rewrite len_flat_map_range with (c := 1%nat) by auto.
  rewrite (@len_flat_map_range _ (fun j => [fan_south Nv Nh _ j]) 1%nat)
    by auto.
  unfold Py.len.
  rewrite length_flat_map_const with (c := (2 * Z.to_nat Nh)%nat).
  2:{ intros i. rewrite length_flat_map_const with (c := 2%nat) by reflexivity.
      rewrite length_range. lia. }
  rewrite length_range, !Nat2Z.inj_mul, !Z2Nat.id by lia.
  change (Z.of_nat 1) with 1. change (Z.of_nat 2) with 2. ring.
Qed.

(** ** Which faces a generator emits *)

Lemma in_flat_map_range (A : Type) (g : Z -> list A) (n : Z) (a : A) :
  In a (flat_map g (Py.range n)) <-> exists i, 0 <= i < n /\ In a (g i).
Proof.
  rewrite in_flat_map. split; intros (i & Hi & Ha); exists i; split; auto;
    now apply in_range.
Qed.

Lemma in_cylinder_faces (N : Z) (f : face) :
  In f (cylinder_faces N) <->
  exists i, 0 <= i < N /\
    (f = fan_down N i \/ f = fan_up N i \/ f = side_lo N i \/ f = side_hi N i).
Proof.
  rewrite cylinder_faces_eq, !in_app_iff, !in_flat_map_range. simpl.
  split.
  - intros [(i & Hi & H) | [(i & Hi & H) | (i & Hi & H)]];
      exists i; intuition auto.
  - intros (i & Hi & [H | [H | [H | H]]]);
      [left | right; left | right; right | right; right];
      exists i; intuition auto.
Qed.

Lemma in_cone_faces (N : Z) (f : face) :
  In f (cone_faces N) <->
  exists i, 0 <= i < N /\ (f = fan_down N i \/ f = side_apex N i).
Proof.
  rewrite cone_faces_eq, !in_app_iff, !in_flat_map_range. simpl.
  split.
  - intros [(i & Hi & H) | (i & Hi & H)]; exists i; intuition auto.
  - intros (i & Hi & [H | H]); [left | right]; exists i; intuition auto.
Qed.

Lemma in_sphere_faces (vs : list vec3) (Nv Nh : Z) (f : face) :
  In f (sphere_faces vs Nv Nh) <->
  (exists j, 0 <= j < Nh /\ f = fan_north Nh j) \/
  (exists i j, 0 <= i < Nv - 2 /\ 0 <= j < Nh /\
     (f = band_lo Nh i j \/ f = band_hi Nh i j)) \/
  (exists j, 0 <= j < Nh /\ f = fan_south Nv Nh (Py.len vs - 1) j).
Proof.
  rewrite sphere_faces_eq, !in_app_iff, !in_flat_map_range. simpl.
  split.
  - intros [(j & Hj & H) | [(i & Hi & H) | (j & Hj & H)]].
    + left. exists j. intuition auto.
    + right. left. apply in_flat_map_range in H as (j & Hj & H).
      exists i, j. simpl in H. intuition auto.
    + right. right. exists j. intuition auto.
  - intros [(j & Hj & H) | [(i & j & Hi & Hj & H) | (j & Hj & H)]].
    + left. exists j. intuition auto.
    + right. left. exists i. split; [exact Hi|].
      apply in_flat_map_range. exists j. simpl. intuition auto.
    + right. right. exists j. intuition auto.
Qed.

(** Ring arithmetic: unfold the face builders, split [next] into its
    two cases and leave linear arithmetic. *)
Ltac ring_cases N i Hi :=
  let H := fresh "Hnext" in
  destruct (@next_cases N i Hi) as [[? H] | [? H]];
  rewrite ?H in *.

Ltac unfold_faces :=
  unfold fan_down, fan_up, side_lo, side_hi, side_apex,
    fan_north, band_lo, band_hi, fan_south in *.

(** ** Face indices are in bounds (lines 109-111 and the like) *)

Lemma cylinder_in_bounds (N : Z) (f : face) :
  In f (cylinder_faces N) -> in_bounds (2 + 2 * N) f.
Proof.
  intros Hf. apply in_cylinder_faces in Hf as (i & Hi & Hf).
  ring_cases N i Hi;
    destruct Hf as [-> | [-> | [-> | ->]]];
    unfold_faces; unfold in_bounds, f0, f1, f2; cbn [fst snd];
    rewrite ?Hnext; lia.
Qed.

Lemma cone_in_bounds (N : Z) (f : face) :
  In f (cone_faces N) -> in_bounds (2 + N) f.
Proof.
  intros Hf. apply in_cone_faces in Hf as (i & Hi & Hf).
  ring_cases N i Hi;
    destruct Hf as [-> | ->];
    unfold_faces; unfold in_bounds, f0, f1, f2; cbn [fst snd];
    rewrite ?Hnext; lia.
Qed.

Lemma sphere_in_bounds (vs : list vec3) (Nv Nh : Z) (f : face) :
  3 <= Nv ->
  Py.len vs = 2 + (Nv - 1) * Nh ->
  In f (sphere_faces vs Nv Nh) -> in_bounds (2 + (Nv - 1) * Nh) f.
Proof.
  intros Hv Hlen Hf. rewrite in_sphere_faces, Hlen in Hf.
  destruct Hf as [(j & Hj & ->) | [(i & j & Hi & Hj & Hf) | (j & Hj & ->)]].
  - ring_cases Nh j Hj; unfold_faces; unfold in_bounds, f0, f1, f2;
      cbn [fst snd];
      rewrite ?Hnext; nia.
  - assert (Hb : (i + 1) * Nh + Nh <= (Nv - 1) * Nh) by nia.
    assert (Hi0 : 0 <= i * Nh) by nia.
    ring_cases Nh j Hj; destruct Hf as [-> | ->];
      unfold_faces; unfold in_bounds, f0, f1, f2; cbn [fst snd];
      rewrite ?Hnext; lia.
  - assert (Hb : 0 <= (Nv - 2) * Nh) by nia.
    ring_cases Nh j Hj; unfold_faces; unfold in_bounds, f0, f1, f2;
      cbn [fst snd];
      rewrite ?Hnext; lia.
Qed.

(** ** No face repeats a vertex index *)

Lemma cylinder_nondegenerate (N : Z) (f : face) :
  2 <= N -> In f (cylinder_faces N) -> nondegenerate f.
Proof.
  intros HN Hf. apply in_cylinder_faces in Hf as (i & Hi & Hf).
  ring_cases N i Hi;
    destruct Hf as [-> | [-> | [-> | ->]]];
    unfold_faces; unfold nondegenerate, f0, f1, f2; cbn [fst snd];
    rewrite ?Hnext; lia.
Qed.

Lemma cone_nondegenerate (N : Z) (f : face) :
  2 <= N -> In f (cone_faces N) -> nondegenerate f.
Proof.
  intros HN Hf. apply in_cone_faces in Hf as (i & Hi & Hf).
  ring_cases N i Hi;
    destruct Hf as [-> | ->];
    unfold_faces; unfold nondegenerate, f0, f1, f2; cbn [fst snd];
    rewrite ?Hnext; lia.
Qed.

Lemma sphere_nondegenerate (vs : list vec3) (Nv Nh : Z) (f : face) :
  3 <= Nv -> 2 <= Nh ->
  Py.len vs = 2 + (Nv - 1) * Nh ->
  In f (sphere_faces vs Nv Nh) -> nondegenerate f.
Proof.
  intros Hv Hh Hlen Hf. rewrite in_sphere_faces, Hlen in Hf.
  destruct Hf as [(j & Hj & ->) | [(i & j & Hi & Hj & Hf) | (j & Hj & ->)]].
  - ring_cases Nh j Hj; unfold_faces; unfold nondegenerate, f0, f1, f2;
      cbn [fst snd]; rewrite ?Hnext; lia.
  - ring_cases Nh j Hj; destruct Hf as [-> | ->];
      unfold_faces; unfold nondegenerate, f0, f1, f2; cbn [fst snd];
      rewrite ?Hnext; lia.
  - ring_cases Nh j Hj; unfold_faces; unfold nondegenerate, f0, f1, f2;
      cbn [fst snd]; rewrite ?Hnext; lia.
Qed.

(** ** Lookups succeed, so the generators return *)

Lemma getitem_nonneg (A : Type) (l : list A) (k : Z) :
  0 <= k -> Py.getitem l k = nth_error l (Z.to_nat k).
Proof.
  intros Hk. unfold Py.getitem.
  destruct (Z.leb_spec 0 k); [reflexivity | lia].
Qed.

Lemma getitem_some (A : Type) (l : list A) (k : Z) :
  0 <= k < Py.len l -> exists x, Py.getitem l k = Some x.
Proof.
  intros Hk. rewrite getitem_nonneg by lia.
  destruct (nth_error l (Z.to_nat k)) as [x|] eqn:E; [now exists x|].
  apply nth_error_None in E. unfold Py.len in Hk. lia.
Qed.

Lemma for_each_some (A B : Type) (body : A -> option B) (l : list A) :
  (forall a, In a l -> exists b, body a = Some b) ->
  exists bs, Py.for_each body l = Some bs.
Proof.
  induction l as [|a l IH]; intros H; simpl.
  - now exists [].
  - destruct (H a (or_introl eq_refl)) as (b & ->).
    destruct IH as (bs & ->); [intros; apply H; now right|].
    simpl. now exists (b :: bs).
Qed.

Lemma mesh_vectors_some (vs : list vec3) (fs : list face) :
  (forall f, In f fs -> in_bounds (Py.len vs) f) ->
  exists rows, mesh_vectors vs fs = Some rows.
Proof.
  intros H. apply for_each_some. intros f Hf.
  destruct (H f Hf) as (H0 & H1 & H2).
  destruct (getitem_some vs H0) as (a & ->).
  destruct (getitem_some vs H1) as (b & ->).
  destruct (getitem_some vs H2) as (c & ->).
  simpl. now exists (a, b, c).
Qed.

Lemma face_normal_some (vs : list vec3) (f : face) :
  in_bounds (Py.len vs) f -> exists n, face_normal vs f = Some n.
Proof.
  intros (H0 & H1 & H2). unfold face_normal.
  destruct (getitem_some vs H0) as (a & ->).
  destruct (getitem_some vs H1) as (b & ->).
  destruct (getitem_some vs H2) as (c & ->).
  simpl. eauto.
Qed.

Lemma in_slice_to (A : Type) (l : list A) (k : Z) (a : A) :
  In a (Py.slice_to l k) -> In a l.
Proof.
  unfold Py.slice_to. generalize (Z.to_nat k) as n. revert a.
  induction l as [|x l IH]; intros a [|n]; simpl; try tauto.
  intros [-> | H]; [now left | right; eauto].
Qed.

Lemma create_cylinder_stl_eq (r h : R) (n : Z) :
  create_cylinder_stl r h n =
  Some (cylinder_vertices r h (Z.max 3 n), cylinder_faces (Z.max 3 n)).
Proof.
  unfold create_cylinder_stl. cbv zeta.
  assert (Hb : forall f, In f (cylinder_faces (Z.max 3 n)) ->
             in_bounds (Py.len (cylinder_vertices r h (Z.max 3 n))) f).
  { intros f Hf. rewrite len_cylinder_vertices by lia.
    now apply cylinder_in_bounds. }
  destruct (for_each_some (face_normal (cylinder_vertices r h (Z.max 3 n)))
              (Py.slice_to (cylinder_faces (Z.max 3 n)) 4)) as (ns & ->).
  { intros f Hf. apply face_normal_some, Hb. eapply in_slice_to, Hf. }
  destruct (mesh_vectors_some _ _ Hb) as (rows & ->).
  reflexivity.
Qed.

Lemma create_cone_stl_eq (r h : R) (n : Z) :
  create_cone_stl r h n =
  Some (cone_vertices r h (Z.max 3 n), cone_faces (Z.max 3 n)).
Proof.
  unfold create_cone_stl. cbv zeta.
  destruct (mesh_vectors_some (cone_vertices r h (Z.max 3 n))
              (cone_faces (Z.max 3 n))) as (rows & ->); [|reflexivity].
  intros f Hf. rewrite len_cone_vertices by lia. now apply cone_in_bounds.
Qed.

Lemma create_cone_with_top_stl_eq (rb rt h : R) (n : Z) :
  create_cone_with_top_stl rb rt h n =
  Some (frustum_vertices rb rt h (Z.max 3 n), frustum_faces (Z.max 3 n)).
Proof.
  unfold create_cone_with_top_stl. cbv zeta.
  destruct (mesh_vectors_some (frustum_vertices rb rt h (Z.max 3 n))
              (frustum_faces (Z.max 3 n))) as (rows & ->); [|reflexivity].
  intros f Hf. rewrite len_frustum_vertices by lia.
  rewrite frustum_faces_cylinder in Hf. now apply cylinder_in_bounds.
Qed.

Lemma create_sphere_stl_eq (r : R) (nv nh : Z) :
  create_sphere_stl r nv nh =
  Some (sphere_vertices r (Z.max 3 nv) (Z.max 3 nh),
        sphere_faces (sphere_vertices r (Z.max 3 nv) (Z.max 3 nh))
          (Z.max 3 nv) (Z.max 3 nh)).
Proof.
  unfold create_sphere_stl. cbv zeta.
  destruct (mesh_vectors_some (sphere_vertices r (Z.max 3 nv) (Z.max 3 nh))
              (sphere_faces (sphere_vertices r (Z.max 3 nv) (Z.max 3 nh))
                 (Z.max 3 nv) (Z.max 3 nh))) as (rows & ->); [|reflexivity].
  intros f Hf. rewrite len_sphere_vertices by lia.
  eapply sphere_in_bounds; [| | exact Hf]; [lia|].
  apply len_sphere_vertices; lia.
Qed.

Lemma returns_intro (m : option (list vec3 * list face))
  (P : list vec3 -> list face -> Prop) (vs : list vec3) (fs : list face) :
  m = Some (vs, fs) -> P vs fs -> returns m P.
Proof. intros Hm HP. exists vs, fs. now split. Qed.

(** C3. With the segment counts clamped to at least 3, the generators
    return exactly the stated numbers of vertices and faces: cylinder
    2+2N and 4N, cone 2+N and 2N, frustum 2+2N and 4N, sphere
    2+(Nv-1)*Nh and 2*Nh + 2*Nh*(Nv-2). *)
Theorem generator_counts (r h rb rt : R) (n nv nh : Z) :
  let N := Z.max 3 n in
  let Nv := Z.max 3 nv in
  let Nh := Z.max 3 nh in
  returns (create_cylinder_stl r h n)
    (fun vs fs => Py.len vs = 2 + 2 * N /\ Py.len fs = 4 * N) /\
  returns (create_cone_stl r h n)
    (fun vs fs => Py.len vs = 2 + N /\ Py.len fs = 2 * N) /\
  returns (create_cone_with_top_stl rb rt h n)
    (fun vs fs => Py.len vs = 2 + 2 * N /\ Py.len fs = 4 * N) /\
  returns (create_sphere_stl r nv nh)
    (fun vs fs => Py.len vs = 2 + (Nv - 1) * Nh /\
                  Py.len fs = 2 * Nh + 2 * Nh * (Nv - 2)).
Proof.
  intros N Nv Nh. subst N Nv Nh. repeat split.
  - eapply returns_intro; [apply create_cylinder_stl_eq|]. split.
    + apply len_cylinder_vertices. lia.
    + apply len_cylinder_faces. lia.
  - eapply returns_intro; [apply create_cone_stl_eq|]. split.
    + apply len_cone_vertices. lia.
    + apply len_cone_faces. lia.
  - eapply returns_intro; [apply create_cone_with_top_stl_eq|]. split.
    + apply len_frustum_vertices. lia.
    + rewrite frustum_faces_cylinder. apply len_cylinder_faces. lia.
  - eapply returns_intro; [apply create_sphere_stl_eq|]. split.
    + apply len_sphere_vertices; lia.
    + apply len_sphere_faces; lia.
Qed.

(** C6. A segment count below 3 (1 and 2 in particular) is clamped, not
    rejected: each generator returns, and returns the very pair of vertex
    and face sequences it returns for segment count 3.  For the sphere this
    holds for either of its two segment counts. *)
Theorem segment_clamp (r h rb rt : R) (n m : Z) :
  n < 3 ->
  (create_cylinder_stl r h n = create_cylinder_stl r h 3 /\
   create_cylinder_stl r h n <> None) /\
  (create_cone_stl r h n = create_cone_stl r h 3 /\
   create_cone_stl r h n <> None) /\
  (create_cone_with_top_stl rb rt h n = create_cone_with_top_stl rb rt h 3 /\
   create_cone_with_top_stl rb rt h n <> None) /\
  (create_sphere_stl r n m = create_sphere_stl r 3 m /\
   create_sphere_stl r m n = create_sphere_stl r m 3 /\
   create_sphere_stl r n m <> None /\
   create_sphere_stl r m n <> None).
Proof.
  intros Hn.
  assert (E : Z.max 3 n = 3) by lia.
  rewrite !create_cylinder_stl_eq, !create_cone_stl_eq,
    !create_cone_with_top_stl_eq, !create_sphere_stl_eq, !E.
  change (Z.max 3 3) with 3.
  repeat split; discriminate.
Qed.

Lemma segment_clamp_witness :
  1 < 3 /\
  create_cylinder_stl 1 2 1 = create_cylinder_stl 1 2 3 /\
  create_sphere_stl 1 2 5 = create_sphere_stl 1 3 5.
Proof.
  split; [lia|].
  pose proof (@segment_clamp 1 2 1 1 1 5 ltac:(lia)) as H.
  pose proof (@segment_clamp 1 2 1 1 2 5 ltac:(lia)) as H'.
  split; [apply H | apply H'].
Defined.

(** C8. Every index of every returned face lies in
    [0, number of returned vertices), so the lookups [vertices[f[j]]] that
    assemble the output mesh all succeed. *)
Theorem face_indices_in_bounds (r h rb rt : R) (n nv nh : Z) :
  let ok (vs : list vec3) (fs : list face) :=
    all_in_bounds vs fs /\ exists rows, mesh_vectors vs fs = Some rows in
  returns (create_cylinder_stl r h n) ok /\
  returns (create_cone_stl r h n) ok /\
  returns (create_cone_with_top_stl rb rt h n) ok /\
  returns (create_sphere_stl r nv nh) ok.
Proof.
  intros ok.
  assert (Hok : forall vs fs, all_in_bounds vs fs -> ok vs fs).
  { intros vs fs H. split; [exact H | now apply mesh_vectors_some]. }
  repeat split.
  - eapply returns_intro; [apply create_cylinder_stl_eq|]. apply Hok.
    intros f Hf. rewrite len_cylinder_vertices by lia.
    now apply cylinder_in_bounds.
  - eapply returns_intro; [apply create_cone_stl_eq|]. apply Hok.
    intros f Hf. rewrite len_cone_vertices by lia.
    now apply cone_in_bounds.
  - eapply returns_intro; [apply create_cone_with_top_stl_eq|]. apply Hok.
    intros f Hf. rewrite len_frustum_vertices by lia.
    rewrite frustum_faces_cylinder in Hf. now apply cylinder_in_bounds.
  - eapply returns_intro; [apply create_sphere_stl_eq|]. apply Hok.
    intros f Hf. rewrite len_sphere_vertices by lia.
    eapply sphere_in_bounds; [| | exact Hf]; [lia|].
    apply len_sphere_vertices; lia.
Qed.

(** C10. Every returned face has three pairwise distinct vertex indices:
    no generator emits a triangle that names a vertex twice. *)
Theorem faces_nondegenerate (r h rb rt : R) (n nv nh : Z) :
  let ok (vs : list vec3) (fs : list face) :=
    forall f, In f fs -> nondegenerate f in
  returns (create_cylinder_stl r h n) ok /\
  returns (create_cone_stl r h n) ok /\
  returns (create_cone_with_top_stl rb rt h n) ok /\
  returns (create_sphere_stl r nv nh) ok.
Proof.
  intros ok. repeat split.
  - eapply returns_intro; [apply create_cylinder_stl_eq|].
    intros f Hf. eapply cylinder_nondegenerate; [|exact Hf]. lia.
  - eapply returns_intro; [apply create_cone_stl_eq|].
    intros f Hf. eapply cone_nondegenerate; [|exact Hf]. lia.
  - eapply returns_intro; [apply create_cone_with_top_stl_eq|].
    intros f Hf. rewrite frustum_faces_cylinder in Hf.
    eapply cylinder_nondegenerate; [|exact Hf]. lia.
  - eapply returns_intro; [apply create_sphere_stl_eq|].
    intros f Hf. eapply sphere_nondegenerate; [| | |exact Hf]; try lia.
    apply len_sphere_vertices; lia.
Qed.

(** ** The frustum with equal radii *)

Lemma map_flat_map (A B C : Type) (f : B -> C) (g : A -> list B)
  (l : list A) :
  map f (flat_map g l) = flat_map (fun a => map f (g a)) l.
Proof.
  induction l as [|a l IH]; simpl; [reflexivity|].
  now rewrite map_app, IH.
Qed.

Lemma flat_map_map (A B C : Type) (f : A -> B) (g : B -> list C)
  (l : list A) :
  flat_map g (map f l) = flat_map (fun a => g (f a)) l.
Proof.
  induction l as [|a l IH]; simpl; [reflexivity|]. now rewrite IH.
Qed.

Lemma flat_map_single (A B : Type) (g : A -> B) (l : list A) :
  flat_map (fun x => [g x]) l = map g l.
Proof. induction l as [|x l IH]; simpl; congruence. Qed.

Lemma ring_point_translate (r z dz : R) (N i : Z) :
  vadd (ring_point r z N i) (V3 0 0 dz) = ring_point r (z + dz) N i.
Proof.
  unfold vadd, ring_point. cbn [vx vy vz]. f_equal; lra.
Qed.

(** C7. With both radii equal to [r], the frustum generator returns the
    cylinder's face list unchanged and the cylinder's vertex list moved up
    by [(0, 0, h/2)]. *)
Theorem frustum_equal_radii_is_cylinder (r h : R) (n : Z) :
  returns (create_cylinder_stl r h n) (fun cyl_vs cyl_fs =>
    returns (create_cone_with_top_stl r r h n) (fun vs fs =>
      fs = cyl_fs /\
      vs = map (fun v => vadd v (V3 0 0 (h / 2))) cyl_vs)).
Proof.
  eapply returns_intro; [apply create_cylinder_stl_eq|].
  eapply returns_intro; [apply create_cone_with_top_stl_eq|].
  split; [apply frustum_faces_cylinder|].
  rewrite frustum_vertices_eq, cylinder_vertices_eq.
  rewrite !map_app, !map_flat_map. cbn [map].
  unfold vadd at 1 2. cbn [vx vy vz].
  replace (0 + 0)%R with 0%R by lra.
  replace (- h / 2 + h / 2)%R with 0%R by lra.
  replace (h / 2 + h / 2)%R with h by lra.
  do 2 f_equal; apply flat_map_ext; intros i;
    rewrite ring_point_translate; do 2 f_equal; lra.
Qed.

(** ** The sphere against its specification *)

Lemma in_sphere_vertices (r : R) (Nv Nh : Z) (v : vec3) :
  In v (sphere_vertices r Nv Nh) ->
  v = V3 0 0 r \/
  (exists i j, 1 <= i < Nv /\ 0 <= j < Nh /\ v = sphere_point r Nv Nh i j) \/
  v = V3 0 0 (- r).
Proof.
  rewrite sphere_vertices_eq, !in_app_iff, in_flat_map. simpl.
  intros [[<- | []] | [(i & Hi & H) | [<- | []]]]; auto.
  right. left. apply in_range2 in Hi.
  apply in_flat_map_range in H as (j & Hj & [<- | []]). now exists i, j.
Qed.

Lemma norm_sphere_point (r : R) (Nv Nh i j : Z) :
  norm (sphere_point r Nv Nh i j) = Rabs r.
Proof.
  unfold norm, sphere_point. cbn [vx vy vz].
  set (t := (PI * IZR i / IZR Nv)%R). set (p := (2 * PI * IZR j / IZR Nh)%R).
  pose proof (sin2_cos2 t) as Ht. pose proof (sin2_cos2 p) as Hp.
  unfold Rsqr in Ht, Hp.
  rewrite <- sqrt_Rsqr_abs. f_equal. unfold Rsqr.
  transitivity (r * r * ((sin t * sin t) * (sin p * sin p + cos p * cos p)
                         + cos t * cos t))%R; [ring|].
  rewrite Hp, Rmult_1_r, Ht. ring.
Qed.

Lemma norm_pole (z : R) : norm (V3 0 0 z) = Rabs z.
Proof.
  unfold norm. cbn [vx vy vz]. rewrite <- sqrt_Rsqr_abs. f_equal.
  unfold Rsqr. ring.
Qed.

(** C9. Every vertex the sphere generator returns is at Euclidean
    distance [|radius|] from the origin (in exact real arithmetic). *)
Theorem sphere_vertices_on_sphere (r : R) (nv nh : Z) :
  returns (create_sphere_stl r nv nh) (fun vs _ =>
    forall v, In v vs -> norm v = Rabs r).
Proof.
  eapply returns_intro; [apply create_sphere_stl_eq|].
  intros v Hv. apply in_sphere_vertices in Hv
    as [-> | [(i & j & _ & _ & ->) | ->]].
  - apply norm_pole.
  - apply norm_sphere_point.
  - rewrite norm_pole. apply Rabs_Ropp.
Qed.

Lemma sphere_vertices_spec (r : R) (Nv Nh : Z) :
  sphere_vertices r Nv Nh = SphereSpec.vertices r Nv Nh.
Proof.
  rewrite sphere_vertices_eq. unfold SphereSpec.vertices.
  do 2 f_equal. rewrite flat_map_concat_map.
  apply (f_equal (@concat vec3)).
  apply map_ext. intros i. unfold SphereSpec.ring.
  now rewrite flat_map_single.
Qed.

Ltac face_eq := apply (f_equal2 pair); [apply (f_equal2 pair)|]; lia.

Lemma sphere_faces_spec (vs : list vec3) (Nv Nh : Z) :
  Py.len vs = 2 + (Nv - 1) * Nh ->
  sphere_faces vs Nv Nh = SphereSpec.faces Nv Nh.
Proof.
  intros Hlen. rewrite sphere_faces_eq, Hlen. unfold SphereSpec.faces.
  apply (f_equal2 (@app face)); [|apply (f_equal2 (@app face))].
  - rewrite flat_map_single. apply map_ext. intros j.
    unfold fan_north, SphereSpec.ring_index, SphereSpec.next. face_eq.
  - unfold SphereSpec.mid_bands. rewrite range2_shift, <- flat_map_concat_map.
    rewrite flat_map_map.
    replace (Nv - 1 - 1) with (Nv - 2) by lia.
    apply flat_map_ext. intros i. unfold SphereSpec.band. cbv zeta.
    rewrite <- flat_map_concat_map. apply flat_map_ext. intros j.
    unfold band_lo, band_hi, SphereSpec.ring_index, SphereSpec.next.
    apply (f_equal2 cons); [|apply (f_equal2 cons); [|reflexivity]]; face_eq.
  - rewrite flat_map_single. apply map_ext. intros j.
    unfold fan_south, SphereSpec.ring_index, SphereSpec.south_pole,
      SphereSpec.next. face_eq.
Qed.

(** C4. The sphere generator builds the construction of section 4.3: the
    north pole, the latitude rings [1 .. Nv-1] of [Nh] vertices each, the
    south pole; then the north fan, the mid-band quads split in two, and
    the south fan, with the stated windings and in that order. *)
Theorem sphere_matches_spec (r : R) (nv nh : Z) :
  returns (create_sphere_stl r nv nh) (fun vs fs =>
    vs = SphereSpec.vertices r (Z.max 3 nv) (Z.max 3 nh) /\
    fs = SphereSpec.faces (Z.max 3 nv) (Z.max 3 nh)).
Proof.
  eapply returns_intro; [apply create_sphere_stl_eq|]. split.
  - apply sphere_vertices_spec.
  - apply sphere_faces_spec. apply len_sphere_vertices; lia.
Qed.

(** ** Angles on a ring *)

Section Angles.

Local Open Scope R_scope.

Lemma IZR_ge_3 (N : Z) : (3 <= N)%Z -> 3 <= IZR N.
Proof. intros H. apply IZR_le in H. exact H. Qed.

(** One step around a ring of [N >= 3] points is an angle in [(0, PI)]. *)
Lemma sin_step_pos (N : Z) : (3 <= N)%Z -> 0 < sin (2 * PI / IZR N).
Proof.
  intros HN. apply IZR_ge_3 in HN. pose proof PI_RGT_0 as Hpi.
  assert (Hx : 0 < / IZR N) by (apply Rinv_0_lt_compat; lra).
  assert (Hnx : IZR N * / IZR N = 1) by (apply Rinv_r; lra).
  apply sin_gt_0; unfold Rdiv.
  - apply Rmult_lt_0_compat; lra.
  - nra.
Qed.

(** The angle from a ring point to the next one, wrap-around included. *)
Lemma azimuth_step (N i : Z) :
  (3 <= N)%Z -> (0 <= i < N)%Z ->
  sin (2 * PI * IZR ((i + 1) mod N) / IZR N) * cos (2 * PI * IZR i / IZR N)
  - cos (2 * PI * IZR ((i + 1) mod N) / IZR N) * sin (2 * PI * IZR i / IZR N)
  = sin (2 * PI / IZR N).
Proof.
  intros HN Hi. rewrite <- sin_minus.
  pose proof (IZR_ge_3 HN) as HN'.
  destruct (@next_cases N i Hi) as [[_ ->] | [E ->]].
  - f_equal. rewrite plus_IZR. field. lra.
  - replace (2 * PI * 0 / IZR N - 2 * PI * IZR i / IZR N)
      with (2 * PI / IZR N - 2 * PI).
    + rewrite sin_minus, sin_2PI, cos_2PI. ring.
    + replace (IZR i) with (IZR N - 1)
        by (rewrite <- E, plus_IZR; ring).
      field. lra.
Qed.

(** Every latitude ring lies strictly between the poles. *)
Lemma sin_polar_pos (Nv k : Z) :
  (1 <= k < Nv)%Z -> 0 < sin (PI * IZR k / IZR Nv).
Proof.
  intros Hk. pose proof PI_RGT_0 as Hpi.
  assert (H1 : 1 <= IZR k) by (apply (IZR_le 1); lia).
  assert (H2 : IZR k + 1 <= IZR Nv).
  { rewrite <- (plus_IZR k 1). apply IZR_le. lia. }
  assert (Hx : 0 < / IZR Nv) by (apply Rinv_0_lt_compat; lra).
  assert (Hnx : IZR Nv * / IZR Nv = 1) by (apply Rinv_r; lra).
  apply sin_gt_0; unfold Rdiv.
  - apply Rmult_lt_0_compat; [apply Rmult_lt_0_compat|]; lra.
  - assert (Hkx : IZR k * / IZR Nv < 1) by nra.
    rewrite Rmult_assoc. nra.
Qed.

Lemma sin_band_pos (Nv : Z) : (2 <= Nv)%Z -> 0 < sin (PI / IZR Nv).
Proof.
  intros H. replace (PI / IZR Nv) with (PI * IZR 1 / IZR Nv)
    by (unfold Rdiv; ring).
  apply sin_polar_pos. lia.
Qed.

(** The angle between two adjacent latitude rings. *)
Lemma polar_step (Nv k : Z) :
  (1 <= Nv)%Z ->
  sin (PI * IZR (k + 1) / IZR Nv) * cos (PI * IZR k / IZR Nv)
  - cos (PI * IZR (k + 1) / IZR Nv) * sin (PI * IZR k / IZR Nv)
  = sin (PI / IZR Nv).
Proof.
  intros HN. rewrite <- sin_minus. f_equal. rewrite plus_IZR.
  assert (1 <= IZR Nv) by (apply (IZR_le 1); lia).
  field. lra.
Qed.

(** ** Normals *)

(** Dividing by the length does not change the side a vector points to. *)
Lemma dot_unit_pos (c w : vec3) :
  0 < dot c w -> 0 < dot (vdiv c (norm c)) w.
Proof.
  intros H.
  assert (Hn : 0 < norm c).
  { unfold norm. apply sqrt_lt_R0.
    destruct c as [x y z], w as [a b d]. unfold dot in H. cbn [vx vy vz] in *.
    destruct (Req_dec x 0) as [-> | Hx]; [|nra].
    destruct (Req_dec y 0) as [-> | Hy]; [|nra].
    destruct (Req_dec z 0) as [-> | Hz]; [|nra].
    lra. }
  replace (dot (vdiv c (norm c)) w) with (dot c w / norm c).
  - now apply Rdiv_lt_0_compat.
  - unfold dot, vdiv. cbn [vx vy vz]. field. lra.
Qed.

Lemma dot_unit_neg (c w : vec3) :
  dot c w < 0 -> dot (vdiv c (norm c)) w < 0.
Proof.
  intros H.
  assert (Hn : 0 < norm c).
  { unfold norm. apply sqrt_lt_R0.
    destruct c as [x y z], w as [a b d]. unfold dot in H. cbn [vx vy vz] in *.
    destruct (Req_dec x 0) as [-> | Hx]; [|nra].
    destruct (Req_dec y 0) as [-> | Hy]; [|nra].
    destruct (Req_dec z 0) as [-> | Hz]; [|nra].
    lra. }
  replace (dot (vdiv c (norm c)) w) with (dot c w / norm c).
  - now apply Rdiv_neg_pos.
  - unfold dot, vdiv. cbn [vx vy vz]. field. lra.
Qed.

(** A vector along the z axis normalises to the axis' unit vector. *)
Lemma unit_z_pos (z : R) :
  0 < z -> vdiv (V3 0 0 z) (norm (V3 0 0 z)) = V3 0 0 1.
Proof.
  intros Hz. rewrite norm_pole, Rabs_pos_eq by lra.
  unfold vdiv. cbn [vx vy vz]. f_equal; field; lra.
Qed.

Lemma unit_z_neg (z : R) :
  z < 0 -> vdiv (V3 0 0 z) (norm (V3 0 0 z)) = V3 0 0 (-1).
Proof.
  intros Hz. rewrite norm_pole, Rabs_left by lra.
  unfold vdiv. cbn [vx vy vz]. f_equal; field; lra.
Qed.

End Angles.

(** ** Looking vertices and faces up by index *)

Section Lookup.

Variable A : Type.

Lemma getitem_head (x : A) (l : list A) : Py.getitem (x :: l) 0 = Some x.
Proof. reflexivity. Qed.

Lemma getitem_tail (x : A) (l : list A) (k : Z) :
  1 <= k -> Py.getitem (x :: l) k = Py.getitem l (k - 1).
Proof.
  intros Hk. rewrite !getitem_nonneg by lia.
  replace (Z.to_nat k) with (S (Z.to_nat (k - 1))) by lia. reflexivity.
Qed.

Lemma getitem_app_l (l1 l2 : list A) (k : Z) :
  0 <= k < Py.len l1 -> Py.getitem (l1 ++ l2) k = Py.getitem l1 k.
Proof.
  intros Hk. rewrite !getitem_nonneg by lia.
  apply nth_error_app1. unfold Py.len in Hk. lia.
Qed.

Lemma getitem_app_r (l1 l2 : list A) (k : Z) :
  Py.len l1 <= k -> Py.getitem (l1 ++ l2) k = Py.getitem l2 (k - Py.len l1).
Proof.
  intros Hk. unfold Py.len in *. rewrite !getitem_nonneg by lia.
  rewrite nth_error_app2 by lia. f_equal. lia.
Qed.

Lemma len_ring (g : Z -> A) (n : Z) :
  0 <= n -> Py.len (flat_map (fun i => [g i]) (Py.range n)) = n.
Proof.
  intros Hn. rewrite len_flat_map_range with (c := 1%nat) by auto. lia.
Qed.

Lemma getitem_ring (g : Z -> A) (n i : Z) :
  0 <= i < n ->
  Py.getitem (flat_map (fun i => [g i]) (Py.range n)) i = Some (g i).
Proof.
  intros Hi. rewrite getitem_nonneg, flat_map_single, nth_error_map by lia.
  rewrite nth_error_range by lia. simpl. f_equal. f_equal. lia.
Qed.

Lemma nth_error_rows (X : Type) (G : X -> list A) (c : nat) (l : list X)
  (k j : nat) :
  (forall x, length (G x) = c) -> (j < c)%nat ->
  nth_error (flat_map G l) (k * c + j) =
  match nth_error l k with
  | Some x => nth_error (G x) j
  | None => None
  end.
Proof.
  intros HG Hj. revert k. induction l as [|x l IH]; intros k; simpl.
  - destruct k; simpl; now rewrite ?nth_error_nil.
  - destruct k as [|k]; simpl.
    + apply nth_error_app1. now rewrite HG.
    + rewrite nth_error_app2 by (rewrite HG; lia).
      rewrite HG. replace (c + k * c + j - c)%nat with (k * c + j)%nat by lia.
      apply IH.
Qed.

(** Row [i], column [j] of a [for i: for j: append] grid. *)
Lemma getitem_grid (g : Z -> Z -> A) (a b Nh i j : Z) :
  0 <= i < b - a -> 0 <= j < Nh ->
  Py.getitem
    (flat_map (fun i => flat_map (fun j => [g i j]) (Py.range Nh))
       (Py.range2 a b)) (i * Nh + j) = Some (g (a + i) j).
Proof.
  intros Hi Hj. rewrite getitem_nonneg by nia.
  replace (Z.to_nat (i * Nh + j))
    with (Z.to_nat i * Z.to_nat Nh + Z.to_nat j)%nat by nia.
  rewrite nth_error_rows with (c := Z.to_nat Nh); [| |lia].
  2:{ intros x. rewrite flat_map_single, length_map, length_range.
      reflexivity. }
  rewrite range2_shift, nth_error_map, nth_error_range by lia. simpl.
  rewrite flat_map_single, nth_error_map, nth_error_range by lia. simpl.
  do 2 f_equal; lia.
Qed.

End Lookup.

(** Two centres followed by two rings: the cylinder and the frustum. *)
Lemma two_ring_lookup (c0 c1 : vec3) (g1 g2 : Z -> vec3) (N i : Z) :
  0 <= i < N ->
  let vs := [c0; c1] ++ flat_map (fun i => [g1 i]) (Py.range N)
                     ++ flat_map (fun i => [g2 i]) (Py.range N) in
  Py.getitem vs 0 = Some c0 /\
  Py.getitem vs 1 = Some c1 /\
  Py.getitem vs (2 + i) = Some (g1 i) /\
  Py.getitem vs (2 + N + i) = Some (g2 i).
Proof.
  intros Hi vs. subst vs.
  assert (H2 : Py.len [c0; c1] = 2) by reflexivity.
  repeat split; try reflexivity.
  - rewrite getitem_app_r, H2 by (rewrite H2; lia).
    rewrite getitem_app_l by (rewrite len_ring; lia).
    replace (2 + i - 2) with i by lia.
    now apply getitem_ring.
  - rewrite getitem_app_r, H2 by (rewrite H2; lia).
    rewrite getitem_app_r by (rewrite len_ring; lia).
    rewrite len_ring by lia.
    replace (2 + N + i - 2 - N) with i by lia.
    now apply getitem_ring.
Qed.

(** Two centres followed by one ring: the cone. *)
Lemma one_ring_lookup (c0 c1 : vec3) (g1 : Z -> vec3) (N i : Z) :
  0 <= i < N ->
  let vs := [c0; c1] ++ flat_map (fun i => [g1 i]) (Py.range N) in
  Py.getitem vs 0 = Some c0 /\
  Py.getitem vs 1 = Some c1 /\
  Py.getitem vs (2 + i) = Some (g1 i).
Proof.
  intros Hi vs. subst vs.
  assert (H2 : Py.len [c0; c1] = 2) by reflexivity.
  repeat split; try reflexivity.
  rewrite getitem_app_r, H2 by (rewrite H2; lia).
  replace (2 + i - 2) with i by lia.
  now apply getitem_ring.
Qed.

(** A pole, a grid of rings, a pole: the sphere. *)
Lemma sphere_lookup (r : R) (Nv Nh k j : Z) :
  1 <= k < Nv -> 0 <= j < Nh ->
  let vs := sphere_vertices r Nv Nh in
  Py.getitem vs 0 = Some (V3 0 0 r) /\
  Py.getitem vs (1 + (k - 1) * Nh + j) = Some (sphere_point r Nv Nh k j) /\
  Py.getitem vs (1 + (Nv - 1) * Nh) = Some (V3 0 0 (- r)).
Proof.
  intros Hk Hj vs. subst vs. rewrite sphere_vertices_eq.
  assert (H1 : Py.len [V3 0 0 r] = 1) by reflexivity.
  assert (Hlen : Py.len (flat_map (fun i =>
            flat_map (fun j => [sphere_point r Nv Nh i j]) (Py.range Nh))
            (Py.range2 1 Nv)) = (Nv - 1) * Nh).
  { unfold Py.len. rewrite length_flat_map_const with (c := Z.to_nat Nh).
    - rewrite length_range2. nia.
    - intros i. now rewrite flat_map_single, length_map, length_range. }
  repeat split; try reflexivity.
  - rewrite getitem_app_r, H1 by (rewrite H1; nia).
    replace (1 + (k - 1) * Nh + j - 1) with ((k - 1) * Nh + j) by lia.
    rewrite getitem_app_l by (rewrite Hlen; nia).
    rewrite getitem_grid by lia. do 2 f_equal. lia.
  - rewrite getitem_app_r, H1 by (rewrite H1; nia).
    rewrite getitem_app_r by (rewrite Hlen; lia).
    rewrite Hlen.
    replace (1 + (Nv - 1) * Nh - 1 - (Nv - 1) * Nh) with 0 by lia.
    reflexivity.
Qed.

Lemma face_normal_eq (vs : list vec3) (f : face) (v0 v1 v2 : vec3) :
  Py.getitem vs (f0 f) = Some v0 ->
  Py.getitem vs (f1 f) = Some v1 ->
  Py.getitem vs (f2 f) = Some v2 ->
  face_normal vs f =
  Some (vdiv (cross (vsub v1 v0) (vsub v2 v0))
          (norm (cross (vsub v1 v0) (vsub v2 v0)))).
Proof. intros H0 H1 H2. unfold face_normal. now rewrite H0, H1, H2. Qed.

Lemma points_away_intro (c : vec3) (vs : list vec3) (f : face)
  (v0 v1 v2 : vec3) :
  Py.getitem vs (f0 f) = Some v0 ->
  Py.getitem vs (f1 f) = Some v1 ->
  Py.getitem vs (f2 f) = Some v2 ->
  (0 < dot (cross (vsub v1 v0) (vsub v2 v0)) (vsub v0 c))%R ->
  points_away_from c vs f.
Proof.
  intros H0 H1 H2 Hd. exists v0. eexists. split; [exact H0|]. split.
  - eapply face_normal_eq; eassumption.
  - now apply dot_unit_pos.
Qed.

Lemma points_toward_intro (c : vec3) (vs : list vec3) (f : face)
  (v0 v1 v2 : vec3) :
  Py.getitem vs (f0 f) = Some v0 ->
  Py.getitem vs (f1 f) = Some v1 ->
  Py.getitem vs (f2 f) = Some v2 ->
  (dot (cross (vsub v1 v0) (vsub v2 v0)) (vsub v0 c) < 0)%R ->
  points_toward c vs f.
Proof.
  intros H0 H1 H2 Hd. exists v0. eexists. split; [exact H0|]. split.
  - eapply face_normal_eq; eassumption.
  - now apply dot_unit_neg.
Qed.

(** ** The cylinder's caps *)

Lemma next_in_range (N i : Z) : 0 < N -> 0 <= (i + 1) mod N < N.
Proof. intros HN. apply Z.mod_pos_bound. lia. Qed.

Lemma cylinder_cap_faces (N i : Z) :
  0 <= i < N ->
  Py.getitem (cylinder_faces N) i = Some (fan_down N i) /\
  Py.getitem (cylinder_faces N) (N + i) = Some (fan_up N i).
Proof.
  intros Hi. rewrite cylinder_faces_eq. split.
  - rewrite getitem_app_l by (rewrite len_ring; lia).
    now apply getitem_ring.
  - rewrite getitem_app_r by (rewrite len_ring; lia).
    rewrite len_ring by lia.
    rewrite getitem_app_l by (rewrite len_ring; lia).
    replace (N + i - N) with i by lia. now apply getitem_ring.
Qed.

Lemma cylinder_lookup (r h : R) (N i : Z) :
  0 <= i < N ->
  let vs := cylinder_vertices r h N in
  Py.getitem vs 0 = Some (V3 0 0 (- h / 2)) /\
  Py.getitem vs 1 = Some (V3 0 0 (h / 2)) /\
  Py.getitem vs (2 + i) = Some (ring_point r (- h / 2) N i) /\
  Py.getitem vs (2 + N + i) = Some (ring_point r (h / 2) N i).
Proof.
  intros Hi vs. subst vs. rewrite cylinder_vertices_eq.
  now apply two_ring_lookup.
Qed.

Section CapNormals.

Local Open Scope R_scope.

Variables (r h : R) (N i : Z).
Hypothesis Hr : 0 < r.
Hypothesis HN : (3 <= N)%Z.
Hypothesis Hi : (0 <= i < N)%Z.

Lemma fan_down_normal :
  face_normal (cylinder_vertices r h N) (fan_down N i) = Some (V3 0 0 (-1)).
Proof.
  assert (Hn : (0 <= (i + 1) mod N < N)%Z) by (apply next_in_range; lia).
  destruct (cylinder_lookup r h Hi) as (H0 & _ & H2 & _).
  destruct (cylinder_lookup r h Hn) as (_ & _ & H1 & _).
  rewrite (face_normal_eq _ (fan_down N i) H0 H1 H2). f_equal.
  pose proof (azimuth_step HN Hi) as HS.
  pose proof (sin_step_pos HN) as HSpos.
  replace (cross _ _) with (V3 0 0 (- (r * r * sin (2 * PI / IZR N)))).
  - apply unit_z_neg.
    assert (0 < r * r * sin (2 * PI / IZR N))
      by (repeat apply Rmult_lt_0_compat; assumption).
    lra.
  - rewrite <- HS. unfold cross, vsub, ring_point. cbn [vx vy vz].
    f_equal; ring.
Qed.

Lemma fan_up_normal :
  face_normal (cylinder_vertices r h N) (fan_up N i) = Some (V3 0 0 1).
Proof.
  assert (Hn : (0 <= (i + 1) mod N < N)%Z) by (apply next_in_range; lia).
  destruct (cylinder_lookup r h Hi) as (_ & H0 & _ & H1).
  destruct (cylinder_lookup r h Hn) as (_ & _ & _ & H2).
  rewrite (face_normal_eq _ (fan_up N i) H0 H1 H2). f_equal.
  pose proof (azimuth_step HN Hi) as HS.
  pose proof (sin_step_pos HN) as HSpos.
  replace (cross _ _) with (V3 0 0 (r * r * sin (2 * PI / IZR N))).
  - apply unit_z_pos. repeat apply Rmult_lt_0_compat; assumption.
  - rewrite <- HS. unfold cross, vsub, ring_point. cbn [vx vy vz].
    f_equal; ring.
Qed.

End CapNormals.

(** C5. For positive radius and height, every bottom-cap face of the
    cylinder has unit normal (0,0,-1) and every top-cap face has unit normal
    (0,0,+1), exactly, over the reals; and the cylinder of radius 1,
    height 2 and 4 segments has 10 vertices and 16 faces. *)
Theorem cylinder_cap_normals (r h : R) (n : Z) :
  (0 < r)%R -> (0 < h)%R ->
  returns (create_cylinder_stl r h n) (cap_normals (Z.max 3 n)) /\
  returns (create_cylinder_stl 1 2 4)
    (fun vs fs => Py.len vs = 10 /\ Py.len fs = 16).
Proof.
  intros Hr Hh. split.
  - eapply returns_intro; [apply create_cylinder_stl_eq|].
    intros i Hi. destruct (cylinder_cap_faces Hi) as (Hlo & Hhi). split.
    + exists (fan_down (Z.max 3 n) i). split; [exact Hlo|].
      apply fan_down_normal; [exact Hr | lia | exact Hi].
    + exists (fan_up (Z.max 3 n) i). split; [exact Hhi|].
      apply fan_up_normal; [exact Hr | lia | exact Hi].
  - eapply returns_intro; [apply create_cylinder_stl_eq|]. split.
    + now rewrite len_cylinder_vertices.
    + now rewrite len_cylinder_faces.
Qed.

Lemma cylinder_cap_normals_witness :
  (0 < 1)%R /\ (0 < 2)%R /\
  returns (create_cylinder_stl 1 2 4) (cap_normals (Z.max 3 4)).
Proof.
  split; [lra|]. split; [lra|].
  apply (@cylinder_cap_normals 1 2 4); lra.
Defined.

(** ** Which way the faces point *)

(** The sign of [dot (cross (v1 - v0) (v2 - v0)) (v0 - c)] is read off by
    factoring it as [K] times the sine of one ring step. *)
Ltac factor_step K HS :=
  unfold dot, cross, vsub, ring_point, sphere_point; cbn [vx vy vz];
  match type of HS with
  | ?lhs = _ =>
      match goal with
      | |- (0 < ?e)%R => replace e with (K * lhs)%R by field
      | |- (?e < 0)%R => replace e with (K * lhs)%R by field
      end
  end;
  rewrite HS.

Section CylinderSides.

Local Open Scope R_scope.

Variables (r h : R) (N : Z).
Hypothesis Hr : 0 < r.
Hypothesis Hh : 0 < h.
Hypothesis HN : (3 <= N)%Z.

Lemma cylinder_faces_outward (f : face) :
  In f (cylinder_faces N) ->
  points_away_from (V3 0 0 0) (cylinder_vertices r h N) f.
Proof.
  intros Hf. apply in_cylinder_faces in Hf as (i & Hi & Hf).
  assert (Hn : (0 <= (i + 1) mod N < N)%Z) by (apply next_in_range; lia).
  destruct (cylinder_lookup r h Hi) as (Hc0 & Hc1 & Hb & Ht).
  destruct (cylinder_lookup r h Hn) as (_ & _ & Hb' & Ht').
  pose proof (azimuth_step HN Hi) as HS.
  pose proof (sin_step_pos HN) as HSpos.
  destruct Hf as [-> | [-> | [-> | ->]]].
  - apply (@points_away_intro _ _ (fan_down N i) _ _ _ Hc0 Hb' Hb).
    factor_step (r * r * h / 2) HS.
    repeat apply Rmult_lt_0_compat; lra.
  - apply (@points_away_intro _ _ (fan_up N i) _ _ _ Hc1 Ht Ht').
    factor_step (r * r * h / 2) HS.
    repeat apply Rmult_lt_0_compat; lra.
  - apply (@points_away_intro _ _ (side_lo N i) _ _ _ Hb Hb' Ht').
    factor_step (r * r * h) HS.
    repeat apply Rmult_lt_0_compat; lra.
  - apply (@points_away_intro _ _ (side_hi N i) _ _ _ Hb Ht' Ht).
    factor_step (r * r * h) HS.
    repeat apply Rmult_lt_0_compat; lra.
Qed.

End CylinderSides.

Lemma cone_lookup (r h : R) (N i : Z) :
  0 <= i < N ->
  let vs := cone_vertices r h N in
  Py.getitem vs 0 = Some (V3 0 0 0) /\
  Py.getitem vs 1 = Some (V3 0 0 h) /\
  Py.getitem vs (2 + i) = Some (ring_point r 0 N i).
Proof.
  intros Hi vs. subst vs. rewrite cone_vertices_eq.
  now apply one_ring_lookup.
Qed.

Lemma frustum_lookup (rb rt h : R) (N i : Z) :
  0 <= i < N ->
  let vs := frustum_vertices rb rt h N in
  Py.getitem vs 0 = Some (V3 0 0 0) /\
  Py.getitem vs 1 = Some (V3 0 0 h) /\
  Py.getitem vs (2 + i) = Some (ring_point rb 0 N i) /\
  Py.getitem vs (2 + N + i) = Some (ring_point rt h N i).
Proof.
  intros Hi vs. subst vs. rewrite frustum_vertices_eq.
  now apply two_ring_lookup.
Qed.

Section ConeSides.

Local Open Scope R_scope.

Variables (r rb rt h : R) (N : Z).
Hypothesis Hr : 0 < r.
Hypothesis Hrb : 0 < rb.
Hypothesis Hrt : 0 < rt.
Hypothesis Hh : 0 < h.
Hypothesis HN : (3 <= N)%Z.

Lemma cone_faces_outward (f : face) :
  In f (cone_faces N) ->
  points_away_from (V3 0 0 (h / 2)) (cone_vertices r h N) f.
Proof.
  intros Hf. apply in_cone_faces in Hf as (i & Hi & Hf).
  assert (Hn : (0 <= (i + 1) mod N < N)%Z) by (apply next_in_range; lia).
  destruct (cone_lookup r h Hi) as (Hc0 & Hc1 & Hb).
  destruct (cone_lookup r h Hn) as (_ & _ & Hb').
  pose proof (azimuth_step HN Hi) as HS.
  pose proof (sin_step_pos HN) as HSpos.
  destruct Hf as [-> | ->].
  - apply (@points_away_intro _ _ (fan_down N i) _ _ _ Hc0 Hb' Hb).
    factor_step (r * r * h / 2) HS.
    repeat apply Rmult_lt_0_compat; lra.
  - apply (@points_away_intro _ _ (side_apex N i) _ _ _ Hb Hb' Hc1).
    factor_step (r * r * h / 2) HS.
    repeat apply Rmult_lt_0_compat; lra.
Qed.

Lemma frustum_faces_outward (f : face) :
  In f (frustum_faces N) ->
  points_away_from (V3 0 0 (h / 2)) (frustum_vertices rb rt h N) f.
Proof.
  intros Hf. rewrite frustum_faces_cylinder in Hf.
  apply in_cylinder_faces in Hf as (i & Hi & Hf).
  assert (Hn : (0 <= (i + 1) mod N < N)%Z) by (apply next_in_range; lia).
  destruct (frustum_lookup rb rt h Hi) as (Hc0 & Hc1 & Hb & Ht).
  destruct (frustum_lookup rb rt h Hn) as (_ & _ & Hb' & Ht').
  pose proof (azimuth_step HN Hi) as HS.
  pose proof (sin_step_pos HN) as HSpos.
  destruct Hf as [-> | [-> | [-> | ->]]].
  - apply (@points_away_intro _ _ (fan_down N i) _ _ _ Hc0 Hb' Hb).
    factor_step (rb * rb * h / 2) HS.
    repeat apply Rmult_lt_0_compat; lra.
  - apply (@points_away_intro _ _ (fan_up N i) _ _ _ Hc1 Ht Ht').
    factor_step (rt * rt * h / 2) HS.
    repeat apply Rmult_lt_0_compat; lra.
  - apply (@points_away_intro _ _ (side_lo N i) _ _ _ Hb Hb' Ht').
    factor_step (rb * h * (rb + rt) / 2) HS.
    repeat apply Rmult_lt_0_compat; lra.
  - apply (@points_away_intro _ _ (side_hi N i) _ _ _ Hb Ht' Ht).
    factor_step (rt * h * (rb + rt) / 2) HS.
    repeat apply Rmult_lt_0_compat; lra.
Qed.

End ConeSides.

(** *** The sphere *)

Lemma sphere_ring_lookup (r : R) (Nv Nh i j : Z) :
  0 <= i < Nv - 1 -> 0 <= j < Nh ->
  Py.getitem (sphere_vertices r Nv Nh) (1 + i * Nh + j) =
  Some (sphere_point r Nv Nh (i + 1) j).
Proof.
  intros Hi Hj.
  destruct (@sphere_lookup r Nv Nh (i + 1) j) as (_ & H & _); try lia.
  replace (i + 1 - 1) with i in H by lia. exact H.
Qed.

Lemma sphere_pole_lookup (r : R) (Nv Nh : Z) :
  2 <= Nv -> 1 <= Nh ->
  let vs := sphere_vertices r Nv Nh in
  Py.getitem vs 0 = Some (V3 0 0 r) /\
  Py.getitem vs (Py.len vs - 1) = Some (V3 0 0 (- r)).
Proof.
  intros Hv Hh vs. subst vs.
  destruct (@sphere_lookup r Nv Nh 1 0) as (H0 & _ & H1); try lia.
  split; [exact H0|].
  rewrite len_sphere_vertices by lia.
  replace (2 + (Nv - 1) * Nh - 1) with (1 + (Nv - 1) * Nh) by lia.
  exact H1.
Qed.

Section SphereFaces.

Local Open Scope R_scope.

Variables (r : R) (Nv Nh : Z).
Hypothesis Hr : 0 < r.
Hypothesis Hv : (3 <= Nv)%Z.
Hypothesis Hh : (3 <= Nh)%Z.

Lemma neg_times_pos (x s : R) : 0 < x -> 0 < s -> - x * s < 0.
Proof. intros Hx Hs. apply Rmult_neg_pos; lra. Qed.

(** Every face of the sphere has its unit normal on the side of the
    centre: the mesh is wound inside out. *)
Lemma sphere_faces_inward (f : face) :
  In f (sphere_faces (sphere_vertices r Nv Nh) Nv Nh) ->
  points_toward (V3 0 0 0) (sphere_vertices r Nv Nh) f.
Proof.
  intros Hf. apply in_sphere_faces in Hf.
  destruct (@sphere_pole_lookup r Nv Nh) as (Hnorth & Hsouth); try lia.
  set (vs := sphere_vertices r Nv Nh) in *.
  pose proof (sin_step_pos Hh) as HSpos.
  assert (HPpos : 0 < sin (PI / IZR Nv)) by (apply sin_band_pos; lia).
  destruct Hf as [(j & Hj & ->) | [(i & j & Hi & Hj & Hf) | (j & Hj & ->)]].
  - (* north fan *)
    assert (Hn : (0 <= (j + 1) mod Nh < Nh)%Z)
      by (apply next_in_range; lia).
    pose proof (azimuth_step Hh Hj) as HS.
    assert (H1 : Py.getitem vs (1 + j) = Some (sphere_point r Nv Nh 1 j)).
    { pose proof (@sphere_ring_lookup r Nv Nh 0 j) as H.
      simpl in H. apply H; lia. }
    assert (H1' : Py.getitem vs (1 + (j + 1) mod Nh)
                  = Some (sphere_point r Nv Nh 1 ((j + 1) mod Nh))).
    { pose proof (@sphere_ring_lookup r Nv Nh 0 ((j + 1) mod Nh)) as H.
      simpl in H. apply H; lia. }
    assert (Ht : 0 < sin (PI * IZR 1 / IZR Nv)) by (apply sin_polar_pos; lia).
    apply (@points_toward_intro _ _ (fan_north Nh j) _ _ _ Hnorth H1' H1).
    factor_step (- (r * (r * sin (PI * IZR 1 / IZR Nv))
                      * (r * sin (PI * IZR 1 / IZR Nv)))) HS.
    apply neg_times_pos; [|exact HSpos].
    repeat apply Rmult_lt_0_compat; assumption.
  - (* mid bands *)
    assert (Hn : (0 <= (j + 1) mod Nh < Nh)%Z)
      by (apply next_in_range; lia).
    pose proof (azimuth_step Hh Hj) as HS.
    pose proof (@polar_step Nv (i + 1) ltac:(lia)) as HP.
    assert (Ha : Py.getitem vs (1 + i * Nh + j)
                 = Some (sphere_point r Nv Nh (i + 1) j))
      by (apply sphere_ring_lookup; lia).
    assert (Ha' : Py.getitem vs (1 + i * Nh + (j + 1) mod Nh)
                  = Some (sphere_point r Nv Nh (i + 1) ((j + 1) mod Nh)))
      by (apply sphere_ring_lookup; lia).
    assert (Hb : Py.getitem vs (1 + (i + 1) * Nh + j)
                 = Some (sphere_point r Nv Nh (i + 1 + 1) j))
      by (apply sphere_ring_lookup; lia).
    assert (Hb' : Py.getitem vs (1 + (i + 1) * Nh + (j + 1) mod Nh)
                  = Some (sphere_point r Nv Nh (i + 1 + 1) ((j + 1) mod Nh)))
      by (apply sphere_ring_lookup; lia).
    assert (Ht1 : 0 < sin (PI * IZR (i + 1) / IZR Nv))
      by (apply sin_polar_pos; lia).
    assert (Ht2 : 0 < sin (PI * IZR (i + 1 + 1) / IZR Nv))
      by (apply sin_polar_pos; lia).
    destruct Hf as [-> | ->].
    + apply (@points_toward_intro _ _ (band_lo Nh i j) _ _ _ Ha Ha' Hb').
      factor_step
        (- (r * r * r * sin (PI * IZR (i + 1) / IZR Nv)
            * (sin (PI * IZR (i + 1 + 1) / IZR Nv)
                 * cos (PI * IZR (i + 1) / IZR Nv)
               - cos (PI * IZR (i + 1 + 1) / IZR Nv)
                 * sin (PI * IZR (i + 1) / IZR Nv)))) HS.
      rewrite HP. apply neg_times_pos; [|exact HSpos].
      repeat apply Rmult_lt_0_compat; assumption.
    + apply (@points_toward_intro _ _ (band_hi Nh i j) _ _ _ Ha Hb' Hb).
      factor_step
        (- (r * r * r * sin (PI * IZR (i + 1 + 1) / IZR Nv)
            * (sin (PI * IZR (i + 1 + 1) / IZR Nv)
                 * cos (PI * IZR (i + 1) / IZR Nv)
               - cos (PI * IZR (i + 1 + 1) / IZR Nv)
                 * sin (PI * IZR (i + 1) / IZR Nv)))) HS.
      rewrite HP. apply neg_times_pos; [|exact HSpos].
      repeat apply Rmult_lt_0_compat; assumption.
  - (* south fan *)
    assert (Hn : (0 <= (j + 1) mod Nh < Nh)%Z)
      by (apply next_in_range; lia).
    pose proof (azimuth_step Hh Hj) as HS.
    assert (Ha : Py.getitem vs (1 + (Nv - 2) * Nh + j)
                 = Some (sphere_point r Nv Nh (Nv - 2 + 1) j))
      by (apply sphere_ring_lookup; lia).
    assert (Ha' : Py.getitem vs (1 + (Nv - 2) * Nh + (j + 1) mod Nh)
                  = Some (sphere_point r Nv Nh (Nv - 2 + 1) ((j + 1) mod Nh)))
      by (apply sphere_ring_lookup; lia).
    assert (Ht : 0 < sin (PI * IZR (Nv - 2 + 1) / IZR Nv))
      by (apply sin_polar_pos; lia).
    apply (@points_toward_intro _ _ (fan_south Nv Nh (Py.len vs - 1) j)
             _ _ _ Ha Ha' Hsouth).
    factor_step (- (r * (r * sin (PI * IZR (Nv - 2 + 1) / IZR Nv))
                      * (r * sin (PI * IZR (Nv - 2 + 1) / IZR Nv)))) HS.
    apply neg_times_pos; [|exact HSpos].
    repeat apply Rmult_lt_0_compat; assumption.
Qed.

End SphereFaces.

Lemma points_toward_not_away (c : vec3) (vs : list vec3) (f : face) :
  points_toward c vs f -> ~ points_away_from c vs f.
Proof.
  intros (v0 & n & H0 & Hn & Hlt) (v0' & n' & H0' & Hn' & Hgt).
  rewrite H0 in H0'. rewrite Hn in Hn'.
  injection H0' as <-. injection Hn' as <-. lra.
Qed.

(** X15. The outward-normal invariant holds for the cylinder, the cone and
    the frustum: with positive radii and height, every returned face has
    its unit normal pointing away from a point on the axis inside the
    solid. *)
Lemma cylinder_cone_frustum_outward (r rb rt h : R) (n : Z) :
  (0 < r)%R -> (0 < rb)%R -> (0 < rt)%R -> (0 < h)%R ->
  returns (create_cylinder_stl r h n) (fun vs fs =>
    forall f, In f fs -> points_away_from (V3 0 0 0) vs f) /\
  returns (create_cone_stl r h n) (fun vs fs =>
    forall f, In f fs -> points_away_from (V3 0 0 (h / 2)) vs f) /\
  returns (create_cone_with_top_stl rb rt h n) (fun vs fs =>
    forall f, In f fs -> points_away_from (V3 0 0 (h / 2)) vs f).
Proof.
  intros Hr Hrb Hrt Hh. repeat split.
  - eapply returns_intro; [apply create_cylinder_stl_eq|].
    intros f. apply cylinder_faces_outward; auto; lia.
  - eapply returns_intro; [apply create_cone_stl_eq|].
    intros f. apply cone_faces_outward; auto; lia.
  - eapply returns_intro; [apply create_cone_with_top_stl_eq|].
    intros f. apply frustum_faces_outward; auto; lia.
Qed.

(** C1 (sphere). For every positive radius the sphere generator returns a
    non-empty face list in which every face has its unit normal
    [normalize((v1 - v0) x (v2 - v0))] pointing toward the centre of the
    sphere, not away from it: the outward-normal invariant fails on every
    face of every sphere. *)
Theorem sphere_normals_point_inward (r : R) (nv nh : Z) :
  (0 < r)%R ->
  returns (create_sphere_stl r nv nh) (fun vs fs =>
    fs <> [] /\
    forall f, In f fs ->
      points_toward (V3 0 0 0) vs f /\ ~ points_away_from (V3 0 0 0) vs f).
Proof.
  intros Hr. eapply returns_intro; [apply create_sphere_stl_eq|]. split.
  - intros E. apply (f_equal (@Py.len face)) in E.
    rewrite len_sphere_faces in E by lia.
    change (Py.len (@nil face)) with 0 in E.
    assert (Ha : 3 <= Z.max 3 nv) by lia.
    assert (Hb : 3 <= Z.max 3 nh) by lia.
    revert E Ha Hb. generalize (Z.max 3 nv) (Z.max 3 nh). intros a b. nia.
  - intros f Hf.
    assert (H : points_toward (V3 0 0 0)
                  (sphere_vertices r (Z.max 3 nv) (Z.max 3 nh)) f).
    { apply sphere_faces_inward; auto; lia. }
    split; [exact H | now apply points_toward_not_away].
Qed.

Lemma sphere_normals_point_inward_witness :
  (0 < 1)%R /\
  returns (create_sphere_stl 1 3 3) (fun vs fs =>
    fs <> [] /\
    forall f, In f fs ->
      points_toward (V3 0 0 0) vs f /\ ~ points_away_from (V3 0 0 0) vs f).
Proof.
  split; [lra|]. apply (@sphere_normals_point_inward 1 3 3). lra.
Defined.

(** ** Closed meshes from half-edges

    A face list in which no face repeats a vertex, no directed edge occurs
    twice, and every directed edge occurs reversed as well, is closed: each
    undirected edge lies in exactly two faces, one for each direction. *)

Section HalfEdges.

Lemma edge_eqb_eq (e1 e2 : Z * Z) : edge_eqb e1 e2 = true <-> e1 = e2.
Proof.
  destruct e1 as [a b], e2 as [c d]. unfold edge_eqb. cbn [fst snd].
  rewrite andb_true_iff, !Z.eqb_eq. split.
  - intros [-> ->]. reflexivity.
  - intros E. injection E as -> ->. auto.
Qed.

Lemma count_edge_app (e : Z * Z) (l1 l2 : list (Z * Z)) :
  count_edge e (l1 ++ l2) = (count_edge e l1 + count_edge e l2)%nat.
Proof. unfold count_edge. now rewrite filter_app, length_app. Qed.

Lemma count_edge_absent (e : Z * Z) (l : list (Z * Z)) :
  ~ In e l -> count_edge e l = 0%nat.
Proof.
  unfold count_edge. induction l as [|x l IH]; intros Hn; simpl.
  - reflexivity.
  - destruct (edge_eqb e x) eqn:E.
    + apply edge_eqb_eq in E. subst x. exfalso. apply Hn. now left.
    + apply IH. intros H. apply Hn. now right.
Qed.

Lemma count_edge_NoDup (e : Z * Z) (l : list (Z * Z)) :
  NoDup l -> In e l -> count_edge e l = 1%nat.
Proof.
  unfold count_edge. induction l as [|x l IH]; intros Hnd Hin; simpl.
  - destruct Hin.
  - inversion_clear Hnd as [|? ? Hx Hl].
    destruct (edge_eqb e x) eqn:E.
    + apply edge_eqb_eq in E. subst x. simpl. f_equal.
      now apply count_edge_absent.
    + destruct Hin as [-> | Hin]; [|now apply IH].
      assert (edge_eqb e e = true) by now apply edge_eqb_eq.
      congruence.
Qed.

Lemma has_edge_count (f : face) (e : Z * Z) :
  nondegenerate f ->
  (if has_edge e f then 1 else 0)%nat =
  (count_edge e (face_edges f) + count_edge (swap_edge e) (face_edges f))%nat.
Proof.
  destruct f as [[x y] z], e as [a b].
  unfold nondegenerate, has_edge, count_edge, face_edges, same_edge,
    edge_eqb, swap_edge, f0, f1, f2.
  cbn [fst snd existsb filter]. intros (Hxy & Hyz & Hxz).
  destruct (Z.eqb_spec a x), (Z.eqb_spec a y), (Z.eqb_spec a z),
    (Z.eqb_spec b x), (Z.eqb_spec b y), (Z.eqb_spec b z);
    cbn [andb orb length Nat.add]; try reflexivity; exfalso; lia.
Qed.

Lemma edge_faces_count (fs : list face) (e : Z * Z) :
  (forall f, In f fs -> nondegenerate f) ->
  edge_faces e fs =
  (count_edge e (dedges fs) + count_edge (swap_edge e) (dedges fs))%nat.
Proof.
  unfold edge_faces, dedges. induction fs as [|f fs IH]; intros Hnd.
  - reflexivity.
  - cbn [filter flat_map]. rewrite !count_edge_app.
    pose proof (has_edge_count e (Hnd f (or_introl eq_refl))) as Hf.
    pose proof (IH (fun g Hg => Hnd g (or_intror Hg))) as Hfs.
    destruct (has_edge e f); cbn [length]; lia.
Qed.

Lemma closed_of_half_edges (fs : list face) :
  (forall f, In f fs -> nondegenerate f) ->
  NoDup (dedges fs) ->
  (forall e, In e (dedges fs) -> In (swap_edge e) (dedges fs)) ->
  closed fs.
Proof.
  intros Hnd Hu Htwin f e Hf He.
  assert (Hin : In e (dedges fs)).
  { unfold dedges. apply in_flat_map. now exists f. }
  rewrite edge_faces_count by exact Hnd.
  rewrite !count_edge_NoDup by auto. reflexivity.
Qed.

End HalfEdges.

(** ** The generated meshes are closed *)

Lemma dedges_app (l1 l2 : list face) :
  dedges (l1 ++ l2) = dedges l1 ++ dedges l2.
Proof. apply flat_map_app. Qed.

Lemma dedges_flat_map (X : Type) (g : X -> list face) (l : list X) :
  dedges (flat_map g l) = flat_map (fun x => dedges (g x)) l.
Proof. apply flat_map_flat_map. Qed.

Lemma prev_cases (N i : Z) :
  0 <= i < N ->
  0 <= (i + N - 1) mod N < N /\
  ((i + N - 1) mod N + 1) mod N = i /\
  ((i = 0 /\ (i + N - 1) mod N = N - 1) \/
   (0 < i /\ (i + N - 1) mod N = i - 1)).
Proof.
  intros Hi.
  assert (E : (i = 0 /\ (i + N - 1) mod N = N - 1) \/
              (0 < i /\ (i + N - 1) mod N = i - 1)).
  { destruct (Z.eq_dec i 0) as [-> | Hne].
    - left. split; [reflexivity|]. apply Z.mod_small. lia.
    - right. split; [lia|].
      replace (i + N - 1) with (i - 1 + 1 * N) by lia.
      rewrite Z.mod_add by lia. apply Z.mod_small. lia. }
  split; [apply Z.mod_pos_bound; lia|]. split; [|exact E].
  destruct E as [[-> ->] | [Hpos ->]].
  - replace (N - 1 + 1) with N by lia. apply Z.mod_same. lia.
  - replace (i - 1 + 1) with i by lia. apply Z.mod_small. lia.
Qed.

(** Membership in a list of directed edges, down to equations. *)
Ltac split_in :=
  repeat match goal with
  | H : In _ (flat_map _ (Py.range _)) |- _ =>
      apply in_flat_map_range in H; destruct H as (? & ? & H)
  | H : In _ (_ ++ _) |- _ => apply in_app_or in H; destruct H as [H | H]
  | H : In _ (_ :: _) |- _ => destruct H as [H | H]
  | H : In _ [] |- _ => destruct H
  end.

Ltac unfold_edges :=
  unfold dedges, face_edges, swap_edge, f0, f1, f2 in *; unfold_faces;
  cbn [flat_map app fst snd] in *.

(** Two equations for the same directed edge that cannot both hold. *)
Ltac clash :=
  subst;
  repeat match goal with
  | H : (_, _) = (_, _) |- _ => apply pair_equal_spec in H; destruct H
  end;
  lia.

Ltac nodup_small :=
  repeat (apply NoDup_cons; [intros ?Hc; split_in; clash |]);
  apply NoDup_nil.

Ltac next_facts N :=
  repeat match goal with
  | H : 0 <= ?i < N |- _ =>
      lazymatch goal with
      | _ : (i + 1 < N /\ _) \/ _ |- _ => fail
      | _ => pose proof (@next_cases N i H)
      end
  end.

Section ConeClosed.

Variable N : Z.
Hypothesis HN : 3 <= N.

Lemma cone_dedges :
  dedges (cone_faces N) =
  flat_map (fun i => dedges [fan_down N i]) (Py.range N)
    ++ flat_map (fun i => dedges [side_apex N i]) (Py.range N).
Proof. now rewrite cone_faces_eq, dedges_app, !dedges_flat_map. Qed.

Lemma cone_dedges_NoDup : NoDup (dedges (cone_faces N)).
Proof.
  rewrite cone_dedges. apply NoDup_app.
  - apply NoDup_flat_map; [apply NoDup_range | |].
    + intros i Hi. apply in_range in Hi. next_facts N.
      unfold_edges. nodup_small.
    + intros i j a Hi Hj Hne Ha Hb. apply in_range in Hi, Hj.
      next_facts N. unfold_edges. split_in; clash.
  - apply NoDup_flat_map; [apply NoDup_range | |].
    + intros i Hi. apply in_range in Hi. next_facts N.
      unfold_edges. nodup_small.
    + intros i j a Hi Hj Hne Ha Hb. apply in_range in Hi, Hj.
      next_facts N. unfold_edges. split_in; clash.
  - intros a Ha Hb. split_in. next_facts N. unfold_edges. split_in; clash.
Qed.

End ConeClosed.

(** Find the directed edge of the goal among the edges listed. *)
Ltac pick_edge :=
  cbn [In];
  repeat match goal with
  | |- _ \/ _ =>
      first [left; solve [apply pair_equal_spec; split; lia] | right]
  end.

Ltac twin_at k := exists k; split; [lia | solve [unfold_edges; pick_edge]].

Section ConeTwins.

Variable N : Z.
Hypothesis HN : 3 <= N.

Lemma in_cone_dedges (e : Z * Z) :
  In e (dedges (cone_faces N)) <->
  exists k, 0 <= k < N /\ In e (dedges [fan_down N k; side_apex N k]).
Proof.
  rewrite cone_dedges, in_app_iff, !in_flat_map_range. split.
  - intros [(k & Hk & H) | (k & Hk & H)]; exists k; (split; [exact Hk|]);
      unfold dedges in *; cbn [flat_map] in *; rewrite ?app_nil_r in *;
      rewrite in_app_iff; auto.
  - intros (k & Hk & H). unfold dedges in *. cbn [flat_map] in *.
    rewrite ?app_nil_r in *. apply in_app_or in H as [H | H];
      [left | right]; exists k; auto.
Qed.

Lemma cone_dedges_twin (e : Z * Z) :
  In e (dedges (cone_faces N)) -> In (swap_edge e) (dedges (cone_faces N)).
Proof.
  rewrite !in_cone_dedges. intros (i & Hi & He).
  pose proof (@next_cases N i Hi) as Hnext.
  pose proof (@prev_cases N i Hi) as Hprev.
  pose proof (@next_in_range N i ltac:(lia)) as Hn.
  unfold_edges. split_in; subst e; cbn [fst snd];
    first [twin_at i | twin_at ((i + 1) mod N) | twin_at ((i + N - 1) mod N)].
Qed.

Lemma cone_closed : closed (cone_faces N).
Proof.
  apply closed_of_half_edges.
  - intros f Hf. apply (@cone_nondegenerate N f); [lia | exact Hf].
  - now apply cone_dedges_NoDup.
  - exact cone_dedges_twin.
Qed.

End ConeTwins.

Section CylinderClosed.

Variable N : Z.
Hypothesis HN : 3 <= N.

Lemma cylinder_dedges :
  dedges (cylinder_faces N) =
  flat_map (fun i => dedges [fan_down N i]) (Py.range N)
    ++ flat_map (fun i => dedges [fan_up N i]) (Py.range N)
    ++ flat_map (fun i => dedges [side_lo N i; side_hi N i]) (Py.range N).
Proof. now rewrite cylinder_faces_eq, !dedges_app, !dedges_flat_map. Qed.

Lemma cylinder_dedges_NoDup : NoDup (dedges (cylinder_faces N)).
Proof.
  rewrite cylinder_dedges. apply NoDup_app; [|apply NoDup_app|].
  - apply NoDup_flat_map; [apply NoDup_range | |].
    + intros i Hi. apply in_range in Hi. next_facts N.
      unfold_edges. nodup_small.
    + intros i j a Hi Hj Hne Ha Hb. apply in_range in Hi, Hj.
      next_facts N. unfold_edges. split_in; clash.
  - apply NoDup_flat_map; [apply NoDup_range | |].
    + intros i Hi. apply in_range in Hi. next_facts N.
      unfold_edges. nodup_small.
    + intros i j a Hi Hj Hne Ha Hb. apply in_range in Hi, Hj.
      next_facts N. unfold_edges. split_in; clash.
  - apply NoDup_flat_map; [apply NoDup_range | |].
    + intros i Hi. apply in_range in Hi. next_facts N.
      unfold_edges. nodup_small.
    + intros i j a Hi Hj Hne Ha Hb. apply in_range in Hi, Hj.
      next_facts N. unfold_edges. split_in; clash.
  - intros a Ha Hb. split_in. next_facts N. unfold_edges. split_in; clash.
  - intros a Ha Hb. split_in; next_facts N; unfold_edges; split_in; clash.
Qed.

Lemma in_cylinder_dedges (e : Z * Z) :
  In e (dedges (cylinder_faces N)) <->
  exists k, 0 <= k < N /\
    In e (dedges [fan_down N k; fan_up N k; side_lo N k; side_hi N k]).
Proof.
  unfold dedges at 1. rewrite in_flat_map. split.
  - intros (f & Hf & He). apply in_cylinder_faces in Hf as (k & Hk & Hf).
    exists k. split; [exact Hk|]. unfold dedges. apply in_flat_map.
    exists f. split; [|exact He].
    destruct Hf as [-> | [-> | [-> | ->]]]; cbn [In]; auto 10.
  - intros (k & Hk & He). unfold dedges in He.
    apply in_flat_map in He as (f & Hf & He). exists f. split; [|exact He].
    apply in_cylinder_faces. exists k. split; [exact Hk|].
    cbn [In] in Hf. destruct Hf as [<- | [<- | [<- | [<- | []]]]]; auto.
Qed.

Lemma cylinder_dedges_twin (e : Z * Z) :
  In e (dedges (cylinder_faces N)) ->
  In (swap_edge e) (dedges (cylinder_faces N)).
Proof.
  rewrite !in_cylinder_dedges. intros (i & Hi & He).
  pose proof (@next_cases N i Hi) as Hnext.
  pose proof (@prev_cases N i Hi) as Hprev.
  pose proof (@next_in_range N i ltac:(lia)) as Hn.
  unfold_edges. split_in; subst e; cbn [fst snd];
    first [twin_at i | twin_at ((i + 1) mod N) | twin_at ((i + N - 1) mod N)].
Qed.

Lemma cylinder_closed : closed (cylinder_faces N).
Proof.
  apply closed_of_half_edges.
  - intros f Hf. apply (@cylinder_nondegenerate N f); [lia | exact Hf].
  - exact cylinder_dedges_NoDup.
  - exact cylinder_dedges_twin.
Qed.

End CylinderClosed.

Section SphereClosed.

Variables (Nv Nh P : Z).
Hypothesis Hv : 3 <= Nv.
Hypothesis Hh : 3 <= Nh.
Hypothesis HP : P = 1 + (Nv - 1) * Nh.

Lemma sphere_dedges :
  dedges (sphere_face_list Nv Nh P) =
  flat_map (fun j => dedges [fan_north Nh j]) (Py.range Nh)
    ++ flat_map (fun i =>
         flat_map (fun j => dedges [band_lo Nh i j; band_hi Nh i j])
           (Py.range Nh)) (Py.range (Nv - 2))
    ++ flat_map (fun j => dedges [fan_south Nv Nh P j]) (Py.range Nh).
Proof.
  unfold sphere_face_list. rewrite !dedges_app, !dedges_flat_map.
  do 2 f_equal. apply flat_map_ext. intros i. apply dedges_flat_map.
Qed.

(** The products [i * Nh] of a band index are kept as atoms; these are
    the facts linear arithmetic needs about them. *)
Ltac band_facts :=
  assert (3 * Nh <= Nv * Nh) by nia;
  repeat match goal with
  | H : 0 <= ?i < Nv - 2 |- _ =>
      lazymatch goal with
      | _ : i * Nh + 3 * Nh <= Nv * Nh |- _ => fail
      | _ => assert (0 <= i * Nh) by nia;
             assert (i * Nh + 3 * Nh <= Nv * Nh) by nia
      end
  end.

Ltac sphere_clash :=
  next_facts Nh; band_facts; unfold_edges; split_in; clash.

Lemma sphere_dedges_NoDup : NoDup (dedges (sphere_face_list Nv Nh P)).
Proof.
  rewrite sphere_dedges. subst P. apply NoDup_app; [|apply NoDup_app|].
  - apply NoDup_flat_map; [apply NoDup_range | |].
    + intros j Hj. apply in_range in Hj. next_facts Nh.
      unfold_edges. nodup_small.
    + intros j j' a Hj Hj' Hne Ha Hb. apply in_range in Hj, Hj'.
      sphere_clash.
  - apply NoDup_flat_map; [apply NoDup_range | |].
    + intros i Hi. apply in_range in Hi.
      apply NoDup_flat_map; [apply NoDup_range | |].
      * intros j Hj. apply in_range in Hj. next_facts Nh.
        unfold_edges. nodup_small.
      * intros j j' a Hj Hj' Hne Ha Hb. apply in_range in Hj, Hj'.
        sphere_clash.
    + intros i i' a Hi Hi' Hne Ha Hb. apply in_range in Hi, Hi'.
      split_in.
      assert (i < i' -> i * Nh + Nh <= i' * Nh) by nia.
      assert (i' < i -> i' * Nh + Nh <= i * Nh) by nia.
      sphere_clash.
  - apply NoDup_flat_map; [apply NoDup_range | |].
    + intros j Hj. apply in_range in Hj. next_facts Nh. band_facts.
      unfold_edges. nodup_small.
    + intros j j' a Hj Hj' Hne Ha Hb. apply in_range in Hj, Hj'.
      sphere_clash.
  - intros a Ha Hb. split_in. sphere_clash.
  - intros a Ha Hb. split_in; sphere_clash.
Qed.


Lemma sphere_list_nondegenerate (f : face) :
  In f (sphere_face_list Nv Nh P) -> nondegenerate f.
Proof.
  intros Hf. unfold sphere_face_list in Hf. split_in; subst f P;
    next_facts Nh; band_facts;
    unfold nondegenerate; unfold_edges; lia.
Qed.

Lemma in_sphere_dedges (e : Z * Z) :
  In e (dedges (sphere_face_list Nv Nh P)) <->
  (exists j, 0 <= j < Nh /\ In e (dedges [fan_north Nh j])) \/
  (exists i j, 0 <= i < Nv - 2 /\ 0 <= j < Nh /\
     In e (dedges [band_lo Nh i j; band_hi Nh i j])) \/
  (exists j, 0 <= j < Nh /\ In e (dedges [fan_south Nv Nh P j])).
Proof.
  rewrite sphere_dedges, !in_app_iff, !in_flat_map_range. split.
  - intros [H | [(i & Hi & H) | H]]; auto.
    right. left. apply in_flat_map_range in H as (j & Hj & H). now exists i, j.
  - intros [H | [(i & j & Hi & Hj & H) | H]]; auto.
    right. left. exists i. split; [exact Hi|].
    apply in_flat_map_range. now exists j.
Qed.

Ltac north_at k :=
  left; exists k; split; [lia | solve [unfold_edges; pick_edge]].
Ltac band_at i k :=
  right; left; exists i, k; split; [lia|];
  split; [lia | solve [unfold_edges; pick_edge]].
Ltac south_at k :=
  right; right; exists k; split; [lia | solve [unfold_edges; pick_edge]].

(** The reversed edge is looked for at the same place, one step around
    the ring either way, and one band up or down. *)
Ltac twin_near i j :=
  let n := constr:((j + 1) mod Nh) in
  let p := constr:((j + Nh - 1) mod Nh) in
  first
    [ north_at j | north_at n | north_at p
    | south_at j | south_at n | south_at p
    | band_at i j | band_at i n | band_at i p
    | band_at (i - 1) j | band_at (i - 1) n | band_at (i - 1) p
    | band_at (i + 1) j | band_at (i + 1) n | band_at (i + 1) p ].

Lemma sphere_dedges_twin (e : Z * Z) :
  In e (dedges (sphere_face_list Nv Nh P)) ->
  In (swap_edge e) (dedges (sphere_face_list Nv Nh P)).
Proof.
  rewrite !in_sphere_dedges.
  intros [(j & Hj & He) | [(i & j & Hi & Hj & He) | (j & Hj & He)]];
    pose proof (@next_cases Nh j Hj) as Hnext;
    pose proof (@prev_cases Nh j Hj) as Hprev;
    pose proof (@next_in_range Nh j ltac:(lia)) as Hn;
    band_facts; subst P.
  - unfold_edges. split_in; subst e; cbn [fst snd]; twin_near 0 j.
  - assert (Hlo : i = 0 \/ 0 < i) by lia.
    assert (Hhi : i = Nv - 3 \/ i < Nv - 3) by lia.
    destruct Hlo as [Elo | Hlo]; [assert (i * Nh = 0) by nia|];
      (destruct Hhi as [Ehi | Hhi];
         [assert (i * Nh = Nv * Nh - 3 * Nh) by nia|]);
      unfold_edges; split_in; subst e; cbn [fst snd]; twin_near i j.
  - unfold_edges. split_in; subst e; cbn [fst snd]; twin_near (Nv - 3) j.
Qed.

Lemma sphere_list_closed : closed (sphere_face_list Nv Nh P).
Proof.
  apply closed_of_half_edges.
  - exact sphere_list_nondegenerate.
  - exact sphere_dedges_NoDup.
  - exact sphere_dedges_twin.
Qed.

End SphereClosed.

Lemma sphere_closed (vs : list vec3) (Nv Nh : Z) :
  3 <= Nv -> 3 <= Nh ->
  Py.len vs = 2 + (Nv - 1) * Nh ->
  closed (sphere_faces vs Nv Nh).
Proof.
  intros Hv Hh Hlen. rewrite sphere_faces_eq.
  change (closed (sphere_face_list Nv Nh (Py.len vs - 1))).
  apply sphere_list_closed; [exact Hv | exact Hh | lia].
Qed.

(** C2. Every generator returns a closed mesh: each undirected edge of a
    returned face lies in exactly two faces of the returned face list. *)
Theorem generated_meshes_closed (r h rb rt : R) (n nv nh : Z) :
  returns (create_cylinder_stl r h n) (fun _ fs => closed fs) /\
  returns (create_cone_stl r h n) (fun _ fs => closed fs) /\
  returns (create_cone_with_top_stl rb rt h n) (fun _ fs => closed fs) /\
  returns (create_sphere_stl r nv nh) (fun _ fs => closed fs).
Proof.
  repeat split.
  - eapply returns_intro; [apply create_cylinder_stl_eq|].
    apply cylinder_closed. lia.
  - eapply returns_intro; [apply create_cone_stl_eq|].
    apply cone_closed. lia.
  - eapply returns_intro; [apply create_cone_with_top_stl_eq|].
    rewrite frustum_faces_cylinder. apply cylinder_closed. lia.
  - eapply returns_intro; [apply create_sphere_stl_eq|].
    apply sphere_closed; try lia. apply len_sphere_vertices; lia.
Qed.

(** ** Orientation *)

Example euler_small :
  euler (repeat (V3 0 0 0) 8) (cylinder_faces 3) = 2 /\
  euler (repeat (V3 0 0 0) 10) (sphere_faces (repeat (V3 0 0 0) 10) 3 4) = 2.
Proof. split; vm_compute; reflexivity. Qed.

Lemma cylinder_oriented (N : Z) : 3 <= N -> oriented (cylinder_faces N).
Proof.
  intros HN. split.
  - now apply cylinder_dedges_NoDup.
  - now apply cylinder_dedges_twin.
Qed.

Lemma cone_oriented (N : Z) : 3 <= N -> oriented (cone_faces N).
Proof.
  intros HN. split.
  - now apply cone_dedges_NoDup.
  - now apply cone_dedges_twin.
Qed.

Lemma sphere_oriented (vs : list vec3) (Nv Nh : Z) :
  3 <= Nv -> 3 <= Nh ->
  Py.len vs = 2 + (Nv - 1) * Nh ->
  oriented (sphere_faces vs Nv Nh).
Proof.
  intros Hv Hh Hlen. rewrite sphere_faces_eq.
  change (oriented (sphere_face_list Nv Nh (Py.len vs - 1))).
  split.
  - apply sphere_dedges_NoDup; lia.
  - apply sphere_dedges_twin; lia.
Qed.

(** X1. Every generator returns a consistently wound mesh: each directed
    edge of a returned face occurs in the face list exactly once, and its
    reverse occurs there too, so the two faces on an edge traverse it in
    opposite directions. *)
Theorem generated_meshes_oriented (r h rb rt : R) (n nv nh : Z) :
  returns (create_cylinder_stl r h n) (fun _ fs => oriented fs) /\
  returns (create_cone_stl r h n) (fun _ fs => oriented fs) /\
  returns (create_cone_with_top_stl rb rt h n) (fun _ fs => oriented fs) /\
  returns (create_sphere_stl r nv nh) (fun _ fs => oriented fs).
Proof.
  repeat split.
  - eapply returns_intro; [apply create_cylinder_stl_eq|].
    apply cylinder_oriented. lia.
  - eapply returns_intro; [apply create_cone_stl_eq|].
    apply cone_oriented. lia.
  - eapply returns_intro; [apply create_cone_with_top_stl_eq|].
    rewrite frustum_faces_cylinder. apply cylinder_oriented. lia.
  - eapply returns_intro; [apply create_sphere_stl_eq|].
    apply sphere_oriented; try lia. apply len_sphere_vertices; lia.
Qed.

(** ** Counting undirected edges *)

Section EdgeCount.

Lemma existsb_edge_eqb (e : Z * Z) (l : list (Z * Z)) :
  existsb (edge_eqb e) l = true <-> In e l.
Proof.
  rewrite existsb_exists. split.
  - intros (x & Hx & E). apply edge_eqb_eq in E. now subst.
  - intros H. exists e. split; [exact H | now apply edge_eqb_eq].
Qed.

Lemma dedup_In (x : Z * Z) (l : list (Z * Z)) : In x (dedup l) <-> In x l.
Proof.
  induction l as [|e l IH]; simpl; [tauto|].
  destruct (existsb (edge_eqb e) l) eqn:E; simpl; rewrite IH.
  - apply existsb_edge_eqb in E. split; [tauto|]. intros [<- | H]; auto.
  - tauto.
Qed.

Lemma dedup_NoDup (l : list (Z * Z)) : NoDup (dedup l).
Proof.
  induction l as [|e l IH]; simpl; [constructor|].
  destruct (existsb (edge_eqb e) l) eqn:E; [exact IH|].
  constructor; [|exact IH]. rewrite dedup_In. intros H.
  apply existsb_edge_eqb in H. congruence.
Qed.

Lemma same_elements_length (A : Type) (l1 l2 : list A) :
  NoDup l1 -> NoDup l2 -> (forall x, In x l1 <-> In x l2) ->
  length l1 = length l2.
Proof.
  intros H1 H2 H. apply Nat.le_antisymm; apply NoDup_incl_length; auto;
    intros x Hx; now apply H.
Qed.

Lemma filter_split_length (A : Type) (p : A -> bool) (l : list A) :
  length l =
  (length (filter p l) + length (filter (fun x => negb (p x)) l))%nat.
Proof.
  induction l as [|x l IH]; simpl; [reflexivity|].
  destruct (p x); simpl; lia.
Qed.

Lemma swap_edge_involutive (e : Z * Z) : swap_edge (swap_edge e) = e.
Proof. now destruct e. Qed.

Lemma NoDup_map_swap (l : list (Z * Z)) :
  NoDup l -> NoDup (map swap_edge l).
Proof.
  induction l as [|e l IH]; intros H; simpl; [constructor|].
  inversion_clear H as [|? ? He Hl]. constructor; [|now apply IH].
  rewrite in_map_iff. intros (x & Hx & Hin).
  apply (f_equal swap_edge) in Hx. rewrite !swap_edge_involutive in Hx.
  now subst.
Qed.

(** In a duplicate-free list of directed edges closed under reversal and
    without loops, the edges pair up: there are half as many undirected
    edges as directed ones. *)
Lemma half_edges_count (l : list (Z * Z)) :
  NoDup l ->
  (forall e, In e l -> In (swap_edge e) l) ->
  (forall e, In e l -> fst e <> snd e) ->
  length l = (2 * length (dedup (map undirected l)))%nat.
Proof.
  intros Hnd Htwin Hloop.
  set (up := filter ascending l).
  set (down := filter (fun e => negb (ascending e)) l).
  assert (Hup : forall e, In e up <-> In e l /\ fst e < snd e).
  { intros e. unfold up. rewrite filter_In. unfold ascending.
    now rewrite Z.ltb_lt. }
  assert (Hdown : forall e, In e down <-> In e l /\ snd e < fst e).
  { intros e. unfold down. rewrite filter_In. unfold ascending.
    rewrite negb_true_iff, Z.ltb_ge. split; intros [H1 H2]; split; auto.
    - specialize (Hloop e H1). lia.
    - lia. }
  assert (Hle1 : (length down <= length up)%nat).
  { rewrite <- (length_map swap_edge down). apply NoDup_incl_length.
    - apply NoDup_map_swap. now apply NoDup_filter.
    - intros x Hx. apply in_map_iff in Hx as (e & <- & He).
      apply Hdown in He as [He Hlt]. apply Hup.
      split; [now apply Htwin | destruct e; simpl in *; lia]. }
  assert (Hle2 : (length up <= length down)%nat).
  { rewrite <- (length_map swap_edge up). apply NoDup_incl_length.
    - apply NoDup_map_swap. now apply NoDup_filter.
    - intros x Hx. apply in_map_iff in Hx as (e & <- & He).
      apply Hup in He as [He Hlt]. apply Hdown.
      split; [now apply Htwin | destruct e; simpl in *; lia]. }
  assert (Hsame : length (dedup (map undirected l)) = length up).
  { apply same_elements_length.
    - apply dedup_NoDup.
    - now apply NoDup_filter.
    - intros x. rewrite dedup_In, in_map_iff, Hup. split.
      + intros (e & <- & He). pose proof (Hloop e He) as Hne.
        destruct e as [a b]. unfold undirected. cbn [fst snd] in *.
        destruct (Z.lt_ge_cases a b) as [Hab | Hab].
        * rewrite Z.min_l, Z.max_r by lia. split; [exact He | lia].
        * rewrite Z.min_r, Z.max_l by lia. split; [|lia].
          apply (Htwin (a, b) He).
      + intros [Hx Hlt]. exists x. split; [|exact Hx].
        destruct x as [a b]. unfold undirected. cbn [fst snd] in *.
        now rewrite Z.min_l, Z.max_r by lia. }
  rewrite (filter_split_length ascending l). fold up down. lia.
Qed.

Lemma dedges_no_loop (fs : list face) (e : Z * Z) :
  (forall f, In f fs -> nondegenerate f) ->
  In e (dedges fs) -> fst e <> snd e.
Proof.
  intros Hnd He. unfold dedges in He.
  apply in_flat_map in He as (f & Hf & He).
  destruct (Hnd f Hf) as (H01 & H12 & H02).
  unfold face_edges in He. cbn [In] in He.
  destruct He as [<- | [<- | [<- | []]]]; cbn [fst snd]; auto.
Qed.

Lemma len_dedges (fs : list face) : Py.len (dedges fs) = 3 * Py.len fs.
Proof.
  unfold Py.len, dedges.
  rewrite length_flat_map_const with (c := 3%nat) by reflexivity. lia.
Qed.

(** A consistently wound mesh of proper triangles has three edges for
    every two faces. *)
Lemma oriented_edge_count (fs : list face) :
  oriented fs -> (forall f, In f fs -> nondegenerate f) ->
  2 * Py.len (edges fs) = 3 * Py.len fs.
Proof.
  intros [Hnd Htwin] Hprop. rewrite <- len_dedges. unfold edges, Py.len.
  rewrite (half_edges_count Hnd Htwin).
  - lia.
  - intros e He. eapply dedges_no_loop; eauto.
Qed.

End EdgeCount.

(** X2. Every generator returns a mesh of Euler characteristic 2: the
    number of vertices, minus the number of distinct undirected edges, plus
    the number of faces is 2, as for any closed surface without handles. *)
Theorem generated_meshes_euler (r h rb rt : R) (n nv nh : Z) :
  returns (create_cylinder_stl r h n) (fun vs fs => euler vs fs = 2) /\
  returns (create_cone_stl r h n) (fun vs fs => euler vs fs = 2) /\
  returns (create_cone_with_top_stl rb rt h n)
    (fun vs fs => euler vs fs = 2) /\
  returns (create_sphere_stl r nv nh) (fun vs fs => euler vs fs = 2).
Proof.
  assert (HN : 3 <= Z.max 3 n) by lia.
  assert (Hv : 3 <= Z.max 3 nv) by lia.
  assert (Hh : 3 <= Z.max 3 nh) by lia.
  revert HN Hv Hh.
  generalize (Z.max 3 n) (Z.max 3 nv) (Z.max 3 nh)
    (create_cylinder_stl_eq r h n) (create_cone_stl_eq r h n)
    (create_cone_with_top_stl_eq rb rt h n) (create_sphere_stl_eq r nv nh).
  intros N Nv Nh Ecyl Econe Efr Esph HN Hv Hh. repeat split.
  - eapply returns_intro; [exact Ecyl|]. unfold euler.
    pose proof (@oriented_edge_count (cylinder_faces N)
      (cylinder_oriented HN)
      (fun f => @cylinder_nondegenerate N f ltac:(lia))) as HE.
    rewrite len_cylinder_vertices, len_cylinder_faces in * by lia. lia.
  - eapply returns_intro; [exact Econe|]. unfold euler.
    pose proof (@oriented_edge_count (cone_faces N)
      (cone_oriented HN)
      (fun f => @cone_nondegenerate N f ltac:(lia))) as HE.
    rewrite len_cone_vertices, len_cone_faces in * by lia. lia.
  - eapply returns_intro; [exact Efr|]. unfold euler.
    rewrite frustum_faces_cylinder.
    pose proof (@oriented_edge_count (cylinder_faces N)
      (cylinder_oriented HN)
      (fun f => @cylinder_nondegenerate N f ltac:(lia))) as HE.
    rewrite len_frustum_vertices, len_cylinder_faces in * by lia. lia.
  - eapply returns_intro; [exact Esph|]. unfold euler.
    assert (Hlen : Py.len (sphere_vertices r Nv Nh) = 2 + (Nv - 1) * Nh)
      by (apply len_sphere_vertices; lia).
    pose proof (@oriented_edge_count
      (sphere_faces (sphere_vertices r Nv Nh) Nv Nh)
      (sphere_oriented _ Hv Hh Hlen)
      (fun f => @sphere_nondegenerate _ Nv Nh f ltac:(lia) ltac:(lia) Hlen))
      as HE.
    rewrite len_sphere_faces in * by lia. rewrite Hlen. lia.
Qed.

(** ** Every vertex is used *)

Lemma cylinder_all_used (N k : Z) :
  3 <= N -> 0 <= k < 2 + 2 * N ->
  exists f, In f (cylinder_faces N) /\ uses f k.
Proof.
  intros HN Hk.
  assert (Hcase : k = 0 \/ k = 1 \/ 2 <= k < 2 + N \/ 2 + N <= k) by lia.
  destruct Hcase as [-> | [-> | [H | H]]].
  - exists (fan_down N 0). split; [|now left].
    apply in_cylinder_faces. exists 0. split; [lia | auto].
  - exists (fan_up N 0). split; [|now left].
    apply in_cylinder_faces. exists 0. split; [lia | auto].
  - exists (fan_down N (k - 2)). split.
    + apply in_cylinder_faces. exists (k - 2). split; [lia | auto].
    + right. right. unfold fan_down, f2. cbn [snd]. lia.
  - exists (fan_up N (k - 2 - N)). split.
    + apply in_cylinder_faces. exists (k - 2 - N). split; [lia | auto].
    + right. left. unfold fan_up, f1. cbn [fst snd]. lia.
Qed.

Lemma cone_all_used (N k : Z) :
  3 <= N -> 0 <= k < 2 + N ->
  exists f, In f (cone_faces N) /\ uses f k.
Proof.
  intros HN Hk.
  assert (Hcase : k = 0 \/ k = 1 \/ 2 <= k) by lia.
  destruct Hcase as [-> | [-> | H]].
  - exists (fan_down N 0). split; [|now left].
    apply in_cone_faces. exists 0. split; [lia | auto].
  - exists (side_apex N 0). split; [|right; now right].
    apply in_cone_faces. exists 0. split; [lia | auto].
  - exists (fan_down N (k - 2)). split.
    + apply in_cone_faces. exists (k - 2). split; [lia | auto].
    + right. right. unfold fan_down, f2. cbn [snd]. lia.
Qed.

Lemma sphere_all_used (vs : list vec3) (Nv Nh k : Z) :
  3 <= Nv -> 3 <= Nh ->
  Py.len vs = 2 + (Nv - 1) * Nh ->
  0 <= k < Py.len vs ->
  exists f, In f (sphere_faces vs Nv Nh) /\ uses f k.
Proof.
  intros Hv Hh Hlen Hk. rewrite Hlen in Hk.
  assert (Hcase : k = 0 \/ k = 1 + (Nv - 1) * Nh \/
                  1 <= k < 1 + (Nv - 1) * Nh) by lia.
  destruct Hcase as [-> | [-> | H]].
  - exists (fan_north Nh 0). split; [|now left].
    apply in_sphere_faces. left. exists 0. split; [lia | auto].
  - exists (fan_south Nv Nh (Py.len vs - 1) 0). split.
    + apply in_sphere_faces. right. right. exists 0. split; [lia | auto].
    + right. right. unfold fan_south, f2. cbn [snd]. lia.
  - (* a ring vertex: ring [i], position [j] *)
    set (i := (k - 1) / Nh). set (j := (k - 1) mod Nh).
    assert (Hj : 0 <= j < Nh) by (apply Z.mod_pos_bound; lia).
    assert (Hdm : k - 1 = Nh * i + j) by (apply Z.div_mod; lia).
    assert (Hi : 0 <= i < Nv - 1).
    { split.
      - apply Z.div_pos; lia.
      - apply Z.div_lt_upper_bound; lia. }
    destruct (Z.lt_ge_cases i (Nv - 2)) as [Hlo | Hhi].
    + exists (band_lo Nh i j). split.
      * apply in_sphere_faces. right. left. exists i, j.
        repeat split; auto; lia.
      * left. unfold band_lo, f0. cbn [fst]. lia.
    + assert (Ei : i = Nv - 2) by lia.
      exists (fan_south Nv Nh (Py.len vs - 1) j). split.
      * apply in_sphere_faces. right. right. exists j. split; [lia | auto].
      * left. unfold fan_south, f0. cbn [fst]. rewrite <- Ei. lia.
Qed.

(** X3. No generator leaves a vertex unused: every index of the returned
    vertex list is named by at least one returned face. *)
Theorem generated_vertices_all_used (r h rb rt : R) (n nv nh : Z) :
  returns (create_cylinder_stl r h n) all_used /\
  returns (create_cone_stl r h n) all_used /\
  returns (create_cone_with_top_stl rb rt h n) all_used /\
  returns (create_sphere_stl r nv nh) all_used.
Proof.
  repeat split.
  - eapply returns_intro; [apply create_cylinder_stl_eq|].
    intros k Hk. rewrite len_cylinder_vertices in Hk by lia.
    apply cylinder_all_used; lia.
  - eapply returns_intro; [apply create_cone_stl_eq|].
    intros k Hk. rewrite len_cone_vertices in Hk by lia.
    apply cone_all_used; lia.
  - eapply returns_intro; [apply create_cone_with_top_stl_eq|].
    intros k Hk. rewrite len_frustum_vertices in Hk by lia.
    rewrite frustum_faces_cylinder. apply cylinder_all_used; lia.
  - eapply returns_intro; [apply create_sphere_stl_eq|].
    intros k Hk. apply sphere_all_used; try lia.
    apply len_sphere_vertices; lia.
Qed.

(** ** Assembling the output mesh (lines 107-111) *)

Lemma getitem_None (A : Type) (l : list A) (k : Z) :
  Py.getitem l k = None <-> ~ valid_index (Py.len l) k.
Proof.
  unfold Py.getitem, valid_index, Py.len.
  destruct (Z.leb_spec 0 k) as [Hk | Hk].
  - rewrite nth_error_None. lia.
  - destruct (Z.leb_spec (- Z.of_nat (length l)) k) as [Hk' | Hk'].
    + rewrite nth_error_None. lia.
    + split; [lia | reflexivity].
Qed.

Lemma getitem_Some (A : Type) (l : list A) (k : Z) :
  valid_index (Py.len l) k -> exists x, Py.getitem l k = Some x.
Proof.
  intros Hk. destruct (Py.getitem l k) as [x|] eqn:E; [now exists x|].
  apply getitem_None in E. contradiction.
Qed.



(** ** No face has zero area *)

Section UnitNormals.

Local Open Scope R_scope.

Lemma norm_nonneg (c : vec3) : 0 <= norm c.
Proof. unfold norm. apply sqrt_pos. Qed.

Lemma norm_zero (c : vec3) : norm c = 0 -> c = V3 0 0 0.
Proof.
  destruct c as [x y z]. unfold norm. cbn [vx vy vz]. intros H.
  apply sqrt_eq_0 in H; [|nra].
  assert (x = 0) by nra. assert (y = 0) by nra. assert (z = 0) by nra.
  now subst.
Qed.

Lemma norm_unit (c : vec3) : 0 < norm c -> norm (vdiv c (norm c)) = 1.
Proof.
  intros Hs.
  assert (Hss : norm c * norm c = vx c * vx c + vy c * vy c + vz c * vz c).
  { unfold norm. apply sqrt_sqrt. nra. }
  remember (norm c) as s eqn:Es.
  unfold norm, vdiv. cbn [vx vy vz].
  replace (vx c / s * (vx c / s) + vy c / s * (vy c / s)
           + vz c / s * (vz c / s))
    with ((vx c * vx c + vy c * vy c + vz c * vz c) / (s * s))
    by (field; lra).
  rewrite <- Hss. unfold Rdiv. rewrite Rinv_r by nra. apply sqrt_1.
Qed.

(** A normal that points to one side of some point is a unit vector: the
    cross product it was divided by is not zero. *)
Lemma sided_normal_unit (c : vec3) (vs : list vec3) (f : face) :
  points_away_from c vs f \/ points_toward c vs f ->
  exists n, face_normal vs f = Some n /\ norm n = 1.
Proof.
  intros H.
  assert (Hn : exists v0 n, Py.getitem vs (f0 f) = Some v0 /\
                 face_normal vs f = Some n /\ dot n (vsub v0 c) <> 0).
  { destruct H as [(v0 & n & H0 & Hn & Hd) | (v0 & n & H0 & Hn & Hd)];
      exists v0, n; repeat split; auto; lra. }
  destruct Hn as (v0 & n & H0 & Hn & Hd). exists n. split; [exact Hn|].
  unfold face_normal in Hn. rewrite H0 in Hn. simpl in Hn.
  destruct (Py.getitem vs (f1 f)) as [v1|]; [|discriminate].
  destruct (Py.getitem vs (f2 f)) as [v2|]; [|discriminate].
  simpl in Hn. injection Hn as <-.
  apply norm_unit.
  destruct (Rle_lt_or_eq_dec _ _ (norm_nonneg (cross (vsub v1 v0)
    (vsub v2 v0)))) as [Hpos | Hz]; [exact Hpos|].
  exfalso. apply Hd. symmetry in Hz. rewrite (norm_zero _ Hz).
  unfold dot, vdiv. cbn [vx vy vz]. unfold Rdiv. ring.
Qed.

End UnitNormals.

(** X5. With positive radii and height no generator emits a triangle of
    zero area: for every returned face the normal of lines 95-98 is
    computed without dividing by zero and has length exactly 1. *)
Theorem generated_normals_unit (r rb rt h : R) (n nv nh : Z) :
  (0 < r)%R -> (0 < rb)%R -> (0 < rt)%R -> (0 < h)%R ->
  let unit (vs : list vec3) (fs : list face) :=
    forall f, In f fs ->
      exists nrm, face_normal vs f = Some nrm /\ norm nrm = 1%R in
  returns (create_cylinder_stl r h n) unit /\
  returns (create_cone_stl r h n) unit /\
  returns (create_cone_with_top_stl rb rt h n) unit /\
  returns (create_sphere_stl r nv nh) unit.
Proof.
  intros Hr Hrb Hrt Hh unit. repeat split.
  - eapply returns_intro; [apply create_cylinder_stl_eq|].
    intros f Hf. apply sided_normal_unit with (c := V3 0 0 0). left.
    apply cylinder_faces_outward; auto; lia.
  - eapply returns_intro; [apply create_cone_stl_eq|].
    intros f Hf. apply sided_normal_unit with (c := V3 0 0 (h / 2)). left.
    apply cone_faces_outward; auto; lia.
  - eapply returns_intro; [apply create_cone_with_top_stl_eq|].
    intros f Hf. apply sided_normal_unit with (c := V3 0 0 (h / 2)). left.
    apply frustum_faces_outward; auto; lia.
  - eapply returns_intro; [apply create_sphere_stl_eq|].
    intros f Hf. apply sided_normal_unit with (c := V3 0 0 0). right.
    apply sphere_faces_inward; auto; lia.
Qed.

Lemma generated_normals_unit_witness :
  (0 < 1)%R /\ (0 < 2)%R /\
  returns (create_cone_stl 1 2 3) (fun vs fs =>
    forall f, In f fs ->
      exists nrm, face_normal vs f = Some nrm /\ norm nrm = 1%R).
Proof.
  split; [lra|]. split; [lra|].
  apply (@generated_normals_unit 1 1 1 2 3 3 3); lra.
Defined.

(** ** Side walls *)



Section CylinderWalls.

Local Open Scope R_scope.

Variables (r h : R) (N i : Z).
Hypothesis HN : (3 <= N)%Z.
Hypothesis Hi : (0 <= i < N)%Z.


End CylinderWalls.



Section FrustumWalls.

Local Open Scope R_scope.



Variables (rb rt h : R) (N i : Z).
Hypothesis Hrb : 0 < rb.
Hypothesis Hrt : 0 < rt.
Hypothesis HN : (3 <= N)%Z.
Hypothesis Hi : (0 <= i < N)%Z.


End FrustumWalls.



(** ** Where the vertices lie *)

Lemma ring_point_on_circle (r z : R) (N i : Z) :
  on_circle r z (ring_point r z N i).
Proof.
  unfold on_circle, ring_point. cbn [vx vy vz]. split; [reflexivity|].
  pose proof (sin2_cos2 (2 * PI * IZR i / IZR N)) as H. unfold Rsqr in H.
  set (a := (2 * PI * IZR i / IZR N)%R) in *.
  transitivity (r * r * (sin a * sin a + cos a * cos a))%R; [ring|].
  rewrite H. ring.
Qed.

Ltac ring_member :=
  repeat match goal with
  | H : In _ (_ ++ _) |- _ => apply in_app_or in H; destruct H as [H | H]
  | H : In _ (flat_map _ (Py.range _)) |- _ =>
      apply in_flat_map_range in H; destruct H as (? & ? & H)
  | H : In _ (_ :: _) |- _ => destruct H as [H | H]
  | H : In _ [] |- _ => destruct H
  end.


(** *** The sphere is symmetric about its equator *)



(** ** Limiting and scaled shapes *)

Lemma frustum_cap_faces (N i : Z) :
  0 <= i < N ->
  Py.getitem (frustum_faces N) i = Some (fan_down N i) /\
  Py.getitem (frustum_faces N) (N + i) = Some (fan_up N i).
Proof. rewrite frustum_faces_cylinder. apply cylinder_cap_faces. Qed.

Lemma ring_point_zero_radius (z : R) (N i : Z) :
  ring_point 0 z N i = V3 0 0 z.
Proof. unfold ring_point. f_equal; ring. Qed.

(** X10. A frustum with top radius 0 is not turned into a cone: the
    generator still emits the whole top ring and the top cap, every top
    ring vertex coincides with the top centre (0,0,h), and so every
    top-cap face names three coincident points. *)
Theorem frustum_zero_top_collapses (rb h : R) (n : Z) :
  let N := Z.max 3 n in
  returns (create_cone_with_top_stl rb 0 h n) (fun vs fs =>
    Py.len vs = 2 + 2 * N /\ Py.len fs = 4 * N /\
    forall i, 0 <= i < N ->
      Py.getitem vs (2 + N + i) = Some (V3 0 0 h) /\
      exists f, Py.getitem fs (N + i) = Some f /\
                row_of vs f (V3 0 0 h, V3 0 0 h, V3 0 0 h)).
Proof.
  intros N. subst N.
  eapply returns_intro; [apply create_cone_with_top_stl_eq|].
  split; [apply len_frustum_vertices; lia|].
  split; [rewrite frustum_faces_cylinder; apply len_cylinder_faces; lia|].
  intros i Hi.
  assert (Hn : 0 <= (i + 1) mod Z.max 3 n < Z.max 3 n)
    by (apply next_in_range; lia).
  destruct (frustum_lookup rb 0 h Hi) as (_ & Hc & _ & Ht).
  destruct (frustum_lookup rb 0 h Hn) as (_ & _ & _ & Ht').
  rewrite ring_point_zero_radius in Ht, Ht'.
  split; [exact Ht|].
  exists (fan_up (Z.max 3 n) i). split; [now apply frustum_cap_faces|].
  repeat split; assumption.
Qed.

Lemma vscale_ring_point (k r z : R) (N i : Z) :
  vscale k (ring_point r z N i) = ring_point (k * r) (k * z) N i.
Proof. unfold vscale, ring_point. cbn [vx vy vz]. f_equal; ring. Qed.

Lemma vscale_sphere_point (k r : R) (Nv Nh i j : Z) :
  vscale k (sphere_point r Nv Nh i j) = sphere_point (k * r) Nv Nh i j.
Proof. unfold vscale, sphere_point. cbn [vx vy vz]. f_equal; ring. Qed.

Lemma map_ring (A B : Type) (f : A -> B) (g : Z -> A) (l : list Z) :
  map f (flat_map (fun i => [g i]) l) = flat_map (fun i => [f (g i)]) l.
Proof. now rewrite map_flat_map. Qed.

Lemma cylinder_vertices_scale (k r h : R) (N : Z) :
  cylinder_vertices (k * r) (k * h) N =
  map (vscale k) (cylinder_vertices r h N).
Proof.
  rewrite !cylinder_vertices_eq, !map_app, !map_ring. cbn [map].
  unfold vscale at 1 2. cbn [vx vy vz].
  replace (k * 0)%R with 0%R by ring.
  replace (k * (- h / 2))%R with (- (k * h) / 2)%R by field.
  replace (k * (h / 2))%R with (k * h / 2)%R by field.
  do 2 f_equal; apply flat_map_ext; intros i;
    rewrite vscale_ring_point; do 2 f_equal; field.
Qed.

Lemma cone_vertices_scale (k r h : R) (N : Z) :
  cone_vertices (k * r) (k * h) N = map (vscale k) (cone_vertices r h N).
Proof.
  rewrite !cone_vertices_eq, !map_app, !map_ring. cbn [map].
  unfold vscale at 1 2. cbn [vx vy vz].
  replace (k * 0)%R with 0%R by ring.
  f_equal. apply flat_map_ext. intros i.
  rewrite vscale_ring_point. do 2 f_equal. ring.
Qed.

Lemma frustum_vertices_scale (k rb rt h : R) (N : Z) :
  frustum_vertices (k * rb) (k * rt) (k * h) N =
  map (vscale k) (frustum_vertices rb rt h N).
Proof.
  rewrite !frustum_vertices_eq, !map_app, !map_ring. cbn [map].
  unfold vscale at 1 2. cbn [vx vy vz].
  replace (k * 0)%R with 0%R by ring.
  do 2 f_equal; apply flat_map_ext; intros i;
    rewrite vscale_ring_point; do 2 f_equal; ring.
Qed.

Lemma sphere_vertices_scale (k r : R) (Nv Nh : Z) :
  sphere_vertices (k * r) Nv Nh = map (vscale k) (sphere_vertices r Nv Nh).
Proof.
  rewrite !sphere_vertices_eq, !map_app, map_flat_map. cbn [map].
  unfold vscale at 1 3. cbn [vx vy vz].
  replace (k * 0)%R with 0%R by ring.
  replace (k * - r)%R with (- (k * r))%R by ring.
  do 2 f_equal. apply flat_map_ext. intros i.
  rewrite map_ring. apply flat_map_ext. intros j.
  now rewrite vscale_sphere_point.
Qed.

Lemma len_map (A B : Type) (f : A -> B) (l : list A) :
  Py.len (map f l) = Py.len l.
Proof. unfold Py.len. now rewrite length_map. Qed.

(** X11. Scaling every length by [k] scales the mesh by [k]: a generator
    called with radii and height multiplied by [k] returns the same face
    list, and the vertex list of the unscaled call with every vertex
    multiplied by [k]. *)
Theorem generators_scale (k r rb rt h : R) (n nv nh : Z) :
  returns (create_cylinder_stl r h n) (fun vs fs =>
    create_cylinder_stl (k * r) (k * h) n = Some (map (vscale k) vs, fs)) /\
  returns (create_cone_stl r h n) (fun vs fs =>
    create_cone_stl (k * r) (k * h) n = Some (map (vscale k) vs, fs)) /\
  returns (create_cone_with_top_stl rb rt h n) (fun vs fs =>
    create_cone_with_top_stl (k * rb) (k * rt) (k * h) n
    = Some (map (vscale k) vs, fs)) /\
  returns (create_sphere_stl r nv nh) (fun vs fs =>
    create_sphere_stl (k * r) nv nh = Some (map (vscale k) vs, fs)).
Proof.
  repeat split.
  - eapply returns_intro; [apply create_cylinder_stl_eq|].
    now rewrite create_cylinder_stl_eq, cylinder_vertices_scale.
  - eapply returns_intro; [apply create_cone_stl_eq|].
    now rewrite create_cone_stl_eq, cone_vertices_scale.
  - eapply returns_intro; [apply create_cone_with_top_stl_eq|].
    now rewrite create_cone_with_top_stl_eq, frustum_vertices_scale.
  - eapply returns_intro; [apply create_sphere_stl_eq|].
    rewrite create_sphere_stl_eq, sphere_vertices_scale.
    do 2 f_equal. rewrite !sphere_faces_eq, len_map. reflexivity.
Qed.

(** ** The cylinder's self-check (lines 87-104) *)

Lemma slice_to_4 (A : Type) (l : list A) (a b c d : A) :
  Py.getitem l 0 = Some a -> Py.getitem l 1 = Some b ->
  Py.getitem l 2 = Some c -> Py.getitem l 3 = Some d ->
  Py.slice_to l 4 = [a; b; c; d].
Proof.
  unfold Py.getitem, Py.slice_to. simpl.
  destruct l as [|x0 [|x1 [|x2 [|x3 l]]]]; simpl; try discriminate.
  congruence.
Qed.

(** X12. The normals the cylinder's self-check computes for the first four
    faces are (0,0,-1) for each sampled face whose position is below
    [num_segments] and (0,0,+1) for the others, which is the direction the
    code prints as expected for that face; with 3 segments the fourth
    sampled face is already a top-cap face. *)
Theorem cylinder_sampled_normals (r h : R) (n : Z) :
  (0 < r)%R ->
  returns (create_cylinder_stl r h n) (fun vs fs =>
    Py.for_each (face_normal vs) (Py.slice_to fs 4) =
    Some (map (fun i => if i <? Z.max 3 n then V3 0 0 (-1) else V3 0 0 1)
            [0; 1; 2; 3])).
Proof.
  intros Hr. eapply returns_intro; [apply create_cylinder_stl_eq|].
  assert (HN : 3 <= Z.max 3 n) by lia. revert HN.
  generalize (Z.max 3 n). intros N HN.
  destruct (@cylinder_cap_faces N 0 ltac:(lia)) as [Hf0 Hup].
  destruct (@cylinder_cap_faces N 1 ltac:(lia)) as [Hf1 _].
  destruct (@cylinder_cap_faces N 2 ltac:(lia)) as [Hf2 _].
  pose proof (@fan_down_normal r h N 0 Hr HN ltac:(lia)) as Hn0.
  pose proof (@fan_down_normal r h N 1 Hr HN ltac:(lia)) as Hn1.
  pose proof (@fan_down_normal r h N 2 Hr HN ltac:(lia)) as Hn2.
  cbn [map].
  destruct (Z.ltb_spec 0 N) as [_ | ?]; [|lia].
  destruct (Z.ltb_spec 1 N) as [_ | ?]; [|lia].
  destruct (Z.ltb_spec 2 N) as [_ | ?]; [|lia].
  destruct (Z.ltb_spec 3 N) as [Hbig | Hsmall].
  - destruct (@cylinder_cap_faces N 3 ltac:(lia)) as [Hf3 _].
    pose proof (@fan_down_normal r h N 3 Hr HN ltac:(lia)) as Hn3.
    rewrite (slice_to_4 _ Hf0 Hf1 Hf2 Hf3). cbn [Py.for_each].
    rewrite Hn0, Hn1, Hn2, Hn3. reflexivity.
  - assert (E : N = 3) by lia. subst N.
    pose proof (@fan_up_normal r h 3 0 Hr HN ltac:(lia)) as Hn3.
    rewrite (slice_to_4 _ Hf0 Hf1 Hf2 Hup). cbn [Py.for_each].
    rewrite Hn0, Hn1, Hn2, Hn3. reflexivity.
Qed.

Lemma cylinder_sampled_normals_witness :
  (0 < 1)%R /\
  returns (create_cylinder_stl 1 2 3) (fun vs fs =>
    Py.for_each (face_normal vs) (Py.slice_to fs 4) =
    Some [V3 0 0 (-1); V3 0 0 (-1); V3 0 0 (-1); V3 0 0 1]).
Proof.
  split; [lra|]. apply (@cylinder_sampled_normals 1 2 3). lra.
Defined.

Lemma cylinder_cone_frustum_outward_witness :
  (0 < 1)%R /\ (0 < 2)%R /\ (0 < 1)%R /\ (0 < 3)%R /\
  returns (create_cone_with_top_stl 2 1 3 4) (fun vs fs =>
    forall f, In f fs -> points_away_from (V3 0 0 (3 / 2)) vs f).
Proof.
  repeat (split; [lra|]).
  apply (@cylinder_cone_frustum_outward 1 2 1 3 4); lra.
Defined.

(** ** No two vertices coincide *)

Section Distinct.

Local Open Scope R_scope.

Lemma cos_lt_1 (x : R) : 0 < x < 2 * PI -> cos x < 1.
Proof.
  intros [H0 H1]. replace x with (2 * (x / 2)) by field.
  rewrite cos_2a_sin.
  assert (Hs : 0 < sin (x / 2)) by (apply sin_gt_0; lra).
  nra.
Qed.

(** Two ring positions with the same cosine and sine are the same. *)
Lemma azimuth_lt_differs (N i j : Z) :
  (0 <= i < j)%Z -> (j < N)%Z ->
  cos (2 * PI * IZR i / IZR N) = cos (2 * PI * IZR j / IZR N) ->
  sin (2 * PI * IZR i / IZR N) = sin (2 * PI * IZR j / IZR N) ->
  False.
Proof.
  intros Hij HjN Hc Hs. pose proof PI_RGT_0 as Hpi.
  set (a := 2 * PI * IZR i / IZR N) in *.
  set (b := 2 * PI * IZR j / IZR N) in *.
  assert (Hd : cos (b - a) = 1).
  { rewrite cos_minus, Hc, Hs. pose proof (sin2_cos2 b) as H.
    unfold Rsqr in H. lra. }
  assert (H1 : 1 <= IZR j - IZR i).
  { rewrite <- minus_IZR. apply (IZR_le 1). lia. }
  assert (H2 : IZR j - IZR i + 1 <= IZR N).
  { rewrite <- minus_IZR, <- (plus_IZR _ 1). apply IZR_le. lia. }
  assert (Hx : 0 < / IZR N) by (apply Rinv_0_lt_compat; lra).
  assert (Hnx : IZR N * / IZR N = 1) by (apply Rinv_r; lra).
  assert (Hba : b - a = 2 * PI * ((IZR j - IZR i) * / IZR N)).
  { unfold a, b. field. lra. }
  assert (Hq0 : 0 < (IZR j - IZR i) * / IZR N) by nra.
  assert (Hq1 : (IZR j - IZR i) * / IZR N < 1) by nra.
  assert (Hlt : cos (b - a) < 1).
  { apply cos_lt_1. rewrite Hba. split; nra. }
  lra.
Qed.

Lemma azimuth_inj (N i j : Z) :
  (0 <= i < N)%Z -> (0 <= j < N)%Z ->
  cos (2 * PI * IZR i / IZR N) = cos (2 * PI * IZR j / IZR N) ->
  sin (2 * PI * IZR i / IZR N) = sin (2 * PI * IZR j / IZR N) ->
  i = j.
Proof.
  intros Hi Hj Hc Hs.
  destruct (Z.lt_trichotomy i j) as [Hlt | [E | Hgt]]; [|exact E|].
  - exfalso. apply (@azimuth_lt_differs N i j); auto; lia.
  - exfalso. apply (@azimuth_lt_differs N j i); auto; lia.
Qed.

Lemma ring_point_inj (r z z' : R) (N i j : Z) :
  r <> 0 -> (0 <= i < N)%Z -> (0 <= j < N)%Z ->
  ring_point r z N i = ring_point r z' N j -> i = j.
Proof.
  intros Hr Hi Hj E. unfold ring_point in E. injection E as Hx Hy _.
  apply Rmult_eq_reg_l in Hx; [|exact Hr].
  apply Rmult_eq_reg_l in Hy; [|exact Hr].
  now apply (@azimuth_inj N i j).
Qed.

Lemma ring_point_off_axis (r z z' : R) (N i : Z) :
  r <> 0 -> ring_point r z N i <> V3 0 0 z'.
Proof.
  intros Hr E. destruct (ring_point_on_circle r z N i) as [_ H].
  rewrite E in H. cbn [vx vy] in H. nra.
Qed.

Lemma ring_point_height (r r' z z' : R) (N i j : Z) :
  ring_point r z N i = ring_point r' z' N j -> z = z'.
Proof. unfold ring_point. intros E. now injection E. Qed.

Lemma NoDup_ring (r z : R) (N : Z) :
  r <> 0 ->
  NoDup (flat_map (fun i => [ring_point r z N i]) (Py.range N)).
Proof.
  intros Hr. apply NoDup_flat_map; [apply NoDup_range | |].
  - intros i _. repeat constructor. intros [].
  - intros i j v Hi Hj Hne [<- | []] [E | []].
    apply in_range in Hi, Hj. apply Hne. symmetry.
    now apply (@ring_point_inj r z z N j i).
Qed.

Lemma polar_inj (Nv k k' : Z) :
  (1 <= k < Nv)%Z -> (1 <= k' < Nv)%Z ->
  cos (PI * IZR k / IZR Nv) = cos (PI * IZR k' / IZR Nv) -> k = k'.
Proof.
  assert (Hlt : forall a b : Z, (1 <= a < b)%Z -> (b < Nv)%Z ->
            cos (PI * IZR b / IZR Nv) < cos (PI * IZR a / IZR Nv)).
  { intros a b Hab Hb. pose proof PI_RGT_0 as Hpi.
    assert (H1 : 1 <= IZR a) by (apply (IZR_le 1); lia).
    assert (H2 : IZR a + 1 <= IZR b).
    { rewrite <- (plus_IZR a 1). apply IZR_le. lia. }
    assert (H3 : IZR b + 1 <= IZR Nv).
    { rewrite <- (plus_IZR b 1). apply IZR_le. lia. }
    assert (Hx : 0 < / IZR Nv) by (apply Rinv_0_lt_compat; lra).
    assert (Hnx : IZR Nv * / IZR Nv = 1) by (apply Rinv_r; lra).
    assert (Ha : PI * IZR a / IZR Nv = PI * (IZR a * / IZR Nv))
      by (unfold Rdiv; ring).
    assert (Hb' : PI * IZR b / IZR Nv = PI * (IZR b * / IZR Nv))
      by (unfold Rdiv; ring).
    assert (Hqa : 0 < IZR a * / IZR Nv) by nra.
    assert (Hqab : IZR a * / IZR Nv < IZR b * / IZR Nv) by nra.
    assert (Hqb : IZR b * / IZR Nv < 1) by nra.
    rewrite Ha, Hb'. apply cos_decreasing_1; nra. }
  intros Hk Hk' E.
  destruct (Z.lt_trichotomy k k') as [H | [H | H]]; [|exact H|].
  - pose proof (Hlt k k' ltac:(lia) ltac:(lia)). lra.
  - pose proof (Hlt k' k ltac:(lia) ltac:(lia)). lra.
Qed.

Lemma sphere_point_ring (r : R) (Nv Nh i j : Z) :
  sphere_point r Nv Nh i j =
  ring_point (r * sin (PI * IZR i / IZR Nv))
    (r * cos (PI * IZR i / IZR Nv)) Nh j.
Proof. reflexivity. Qed.

End Distinct.

Lemma NoDup_range2 (a b : Z) : NoDup (Py.range2 a b).
Proof.
  rewrite range2_shift.
  generalize (NoDup_range (b - a)). generalize (Py.range (b - a)) as l.
  induction l as [|k l IH]; intros Hl; simpl; constructor.
  - inversion_clear Hl as [|? ? Hk _]. rewrite in_map_iff.
    intros (k' & Heq & Hin). assert (k' = k) by lia. now subst.
  - apply IH. now inversion Hl.
Qed.

Lemma NoDup_pair (A : Type) (x y : A) : x <> y -> NoDup [x; y].
Proof.
  intros H. constructor; [intros [E | []]; now apply H|].
  constructor; [intros [] | constructor].
Qed.

Section DistinctVertices.

Local Open Scope R_scope.

(** Two centres and two rings at different heights. *)
Lemma NoDup_two_rings (r1 r2 z1 z2 : R) (N : Z) :
  r1 <> 0 -> r2 <> 0 -> z1 <> z2 ->
  NoDup ([V3 0 0 z1; V3 0 0 z2]
           ++ flat_map (fun i => [ring_point r1 z1 N i]) (Py.range N)
           ++ flat_map (fun i => [ring_point r2 z2 N i]) (Py.range N)).
Proof.
  intros H1 H2 Hz. apply NoDup_app; [|apply NoDup_app|].
  - apply NoDup_pair. intros E. injection E as E. contradiction.
  - now apply NoDup_ring.
  - now apply NoDup_ring.
  - intros v Ha Hb. ring_member. subst v.
    apply ring_point_height in Hb. congruence.
  - intros v Ha Hb. ring_member; subst v;
      solve [ eapply ring_point_off_axis; [|exact Hb]; assumption
            | eapply ring_point_off_axis; [|exact Ha]; assumption ].
Qed.

Lemma NoDup_one_ring (r z1 z2 : R) (N : Z) :
  r <> 0 -> z1 <> z2 ->
  NoDup ([V3 0 0 z1; V3 0 0 z2]
           ++ flat_map (fun i => [ring_point r z1 N i]) (Py.range N)).
Proof.
  intros H1 Hz. apply NoDup_app.
  - apply NoDup_pair. intros E. injection E as E. contradiction.
  - now apply NoDup_ring.
  - intros v Ha Hb. ring_member; subst v;
      solve [ eapply ring_point_off_axis; [|exact Hb]; assumption
            | eapply ring_point_off_axis; [|exact Ha]; assumption ].
Qed.

Lemma NoDup_sphere_vertices (r : R) (Nv Nh : Z) :
  r <> 0 -> NoDup (sphere_vertices r Nv Nh).
Proof.
  intros Hr. rewrite sphere_vertices_eq.
  assert (Hring : forall i, (1 <= i < Nv)%Z ->
            r * sin (PI * IZR i / IZR Nv) <> 0).
  { intros i Hi. pose proof (sin_polar_pos Hi). nra. }
  apply NoDup_app; [|apply NoDup_app|].
  - repeat constructor. intros [].
  - apply NoDup_flat_map; [apply NoDup_range2 | |].
    + intros i Hi. apply in_range2 in Hi.
      apply (NoDup_ring (r * cos (PI * IZR i / IZR Nv)) Nh (Hring i Hi)).
    + intros i i' v Hi Hi' Hne Ha Hb. apply in_range2 in Hi, Hi'.
      ring_member. rewrite <- Ha in Hb. rewrite !sphere_point_ring in Hb.
      apply ring_point_height in Hb.
      apply Rmult_eq_reg_l in Hb; [|exact Hr].
      apply Hne. symmetry. now apply (@polar_inj Nv i' i).
  - repeat constructor. intros [].
  - intros v Ha Hb. apply in_flat_map in Ha as (i & Hi & Ha).
    apply in_range2 in Hi. ring_member. rewrite <- Hb in Ha.
    rewrite sphere_point_ring in Ha.
    eapply ring_point_off_axis; [|exact Ha]. now apply Hring.
  - intros v Ha Hb. destruct Ha as [Ha | []].
    apply in_app_or in Hb as [Hb | [Hb | []]].
    + apply in_flat_map in Hb as (i & Hi & Hb).
      apply in_range2 in Hi. ring_member. rewrite <- Ha in Hb.
      rewrite sphere_point_ring in Hb.
      eapply ring_point_off_axis; [|exact Hb]. now apply Hring.
    + rewrite <- Ha in Hb. injection Hb as Hb. lra.
Qed.

End DistinctVertices.

(** X13. With positive radii and height the generators emit no vertex
    twice: the points of the returned vertex list are pairwise
    distinct. *)
Theorem generated_vertices_distinct (r rb rt h : R) (n nv nh : Z) :
  (0 < r)%R -> (0 < rb)%R -> (0 < rt)%R -> (0 < h)%R ->
  returns (create_cylinder_stl r h n) (fun vs _ => NoDup vs) /\
  returns (create_cone_stl r h n) (fun vs _ => NoDup vs) /\
  returns (create_cone_with_top_stl rb rt h n) (fun vs _ => NoDup vs) /\
  returns (create_sphere_stl r nv nh) (fun vs _ => NoDup vs).
Proof.
  intros Hr Hrb Hrt Hh. repeat split.
  - eapply returns_intro; [apply create_cylinder_stl_eq|].
    rewrite cylinder_vertices_eq. apply NoDup_two_rings; lra.
  - eapply returns_intro; [apply create_cone_stl_eq|].
    rewrite cone_vertices_eq. apply NoDup_one_ring; lra.
  - eapply returns_intro; [apply create_cone_with_top_stl_eq|].
    rewrite frustum_vertices_eq. apply NoDup_two_rings; lra.
  - eapply returns_intro; [apply create_sphere_stl_eq|].
    apply NoDup_sphere_vertices. lra.
Qed.

Lemma generated_vertices_distinct_witness :
  (0 < 1)%R /\ (0 < 2)%R /\ (0 < 3)%R /\
  returns (create_sphere_stl 1 4 5) (fun vs _ => NoDup vs).
Proof.
  repeat (split; [lra|]).
  apply (@generated_vertices_distinct 1 2 3 1 3 4 5); lra.
Defined.

(** ** The caps of the cone and the frustum *)

Section Caps.

Local Open Scope R_scope.

Variables (vs : list vec3) (f : face) (r z : R) (N i : Z).
Hypothesis Hr : 0 < r.
Hypothesis HN : (3 <= N)%Z.
Hypothesis Hi : (0 <= i < N)%Z.

Lemma cap_normal_down :
  Py.getitem vs (f0 f) = Some (V3 0 0 z) ->
  Py.getitem vs (f1 f) = Some (ring_point r z N ((i + 1) mod N)) ->
  Py.getitem vs (f2 f) = Some (ring_point r z N i) ->
  face_normal vs f = Some (V3 0 0 (-1)).
Proof.
  intros H0 H1 H2. rewrite (face_normal_eq _ f H0 H1 H2). f_equal.
  pose proof (azimuth_step HN Hi) as HS.
  pose proof (sin_step_pos HN) as HSpos.
  replace (cross _ _) with (V3 0 0 (- (r * r * sin (2 * PI / IZR N)))).
  - apply unit_z_neg.
    assert (0 < r * r * sin (2 * PI / IZR N))
      by (repeat apply Rmult_lt_0_compat; assumption).
    lra.
  - rewrite <- HS. unfold cross, vsub, ring_point. cbn [vx vy vz].
    f_equal; ring.
Qed.

Lemma cap_normal_up :
  Py.getitem vs (f0 f) = Some (V3 0 0 z) ->
  Py.getitem vs (f1 f) = Some (ring_point r z N i) ->
  Py.getitem vs (f2 f) = Some (ring_point r z N ((i + 1) mod N)) ->
  face_normal vs f = Some (V3 0 0 1).
Proof.
  intros H0 H1 H2. rewrite (face_normal_eq _ f H0 H1 H2). f_equal.
  pose proof (azimuth_step HN Hi) as HS.
  pose proof (sin_step_pos HN) as HSpos.
  replace (cross _ _) with (V3 0 0 (r * r * sin (2 * PI / IZR N))).
  - apply unit_z_pos. repeat apply Rmult_lt_0_compat; assumption.
  - rewrite <- HS. unfold cross, vsub, ring_point. cbn [vx vy vz].
    f_equal; ring.
Qed.

End Caps.

Lemma cone_base_faces (N i : Z) :
  0 <= i < N -> Py.getitem (cone_faces N) i = Some (fan_down N i).
Proof.
  intros Hi. rewrite cone_faces_eq.
  rewrite getitem_app_l by (rewrite len_ring; lia).
  now apply getitem_ring.
Qed.

(** X14. With positive radii, every base face of the cone (positions
    [0 .. N-1] of its face list) has unit normal exactly (0,0,-1), and the
    frustum's bottom-cap and top-cap faces have unit normals exactly
    (0,0,-1) and (0,0,+1), as the cylinder's do. *)
Theorem cone_frustum_cap_normals (r rb rt h : R) (n : Z) :
  (0 < r)%R -> (0 < rb)%R -> (0 < rt)%R ->
  returns (create_cone_stl r h n) (fun vs fs =>
    forall i, 0 <= i < Z.max 3 n ->
      exists f, Py.getitem fs i = Some f /\
                face_normal vs f = Some (V3 0 0 (-1))) /\
  returns (create_cone_with_top_stl rb rt h n) (cap_normals (Z.max 3 n)).
Proof.
  intros Hr Hrb Hrt.
  assert (HN : 3 <= Z.max 3 n) by lia. revert HN.
  generalize (create_cone_stl_eq r h n)
    (create_cone_with_top_stl_eq rb rt h n). generalize (Z.max 3 n).
  intros N Econe Efr HN. split.
  - eapply returns_intro; [exact Econe|]. intros i Hi.
    assert (Hn : 0 <= (i + 1) mod N < N) by (apply next_in_range; lia).
    destruct (cone_lookup r h Hi) as (Hc & _ & Hb).
    destruct (cone_lookup r h Hn) as (_ & _ & Hb').
    exists (fan_down N i). split; [now apply cone_base_faces|].
    now apply (@cap_normal_down _ (fan_down N i) r 0 N i).
  - eapply returns_intro; [exact Efr|]. intros i Hi.
    assert (Hn : 0 <= (i + 1) mod N < N) by (apply next_in_range; lia).
    destruct (frustum_lookup rb rt h Hi) as (Hc0 & Hc1 & Hb & Ht).
    destruct (frustum_lookup rb rt h Hn) as (_ & _ & Hb' & Ht').
    destruct (frustum_cap_faces Hi) as (Hlo & Hhi). split.
    + exists (fan_down N i). split; [exact Hlo|].
      now apply (@cap_normal_down _ (fan_down N i) rb 0 N i).
    + exists (fan_up N i). split; [exact Hhi|].
      now apply (@cap_normal_up _ (fan_up N i) rt h N i).
Qed.

Lemma cone_frustum_cap_normals_witness :
  (0 < 1)%R /\ (0 < 2)%R /\ (0 < 3)%R /\
  returns (create_cone_with_top_stl 2 3 1 6) (cap_normals (Z.max 3 6)).
Proof.
  repeat (split; [lra|]).
  apply (@cone_frustum_cap_normals 1 2 3 1 6); lra.
Defined.
